(** * WktParser.load: a shallow embedding and its properties

    The development follows [src/formats/wkt/WktParser.js].  The only
    operation of that file with behaviour is [WktParser.prototype.load]; it
    parses the text held by the parser object, asks every parsed object for its
    shapes, lets a caller-supplied callback configure every shape, hands the
    collected shapes to a layer and to a completion callback, and returns the
    parsed objects.

    JavaScript objects are mutable and shared by reference, so they live in a
    store; code outside the file (the tokenizer, the [shapes()] method of the
    parsed objects, the two callbacks and the layer) is taken as a parameter
    that transforms the store and may throw.  Calls that leave the file are
    recorded in a log, so that "how often" and "in which order" can be stated.

    The file has three parts: the embedding (values, store, computations,
    load and the reading of its log), a concrete instance built from the
    examples of the specification, and the properties. *)

From Stdlib Require Import ZArith Ascii String List.
From Stdlib Require Import SpecFloat.
From stdpp Require Import base option list gmap strings.

Local Open Scope string_scope.
Local Open Scope list_scope.

(** ** JavaScript values and the object store *)

(** Object references. *)
Definition loc := positive.

(** The values load can meet in a configuration record or in a shape field.
    Numbers are IEEE-754 doubles, kept in the Standard Library's
    specification format. *)
Inductive Value :=
| VUndefined
| VNull
| VBoolean (b : bool)
| VNumber (x : spec_float)
| VString (s : string)
| VObject (l : loc).

(** [ToBoolean], the test behind [&&] and [||]: undefined, null, false, +0,
    -0, NaN and the empty string are falsy, everything else is truthy. *)
Definition toBoolean (v : Value) : bool :=
  match v with
  | VUndefined | VNull => false
  | VBoolean b => b
  | VNumber (S754_zero _) | VNumber S754_nan => false
  | VNumber _ => true
  | VString EmptyString => false
  | VString _ => true
  | VObject _ => true
  end.

(** An object is the finite map of its properties, and the store maps
    references to objects.  A property is what a read of it gives and what a
    write to it sets; prototype chains, accessors with effects and proxies
    are not modelled: configuration records and shapes are plain data. *)
Abbreviation obj := (gmap string Value).
Abbreviation store := (gmap loc obj).

(** The own property [k] of the object at [l], when both exist. *)
Definition field (σ : store) (l : loc) (k : string) : option Value :=
  σ !! l ≫= (.!! k).

(** [v.k]: an absent property reads as undefined, and so does any property of
    a value that is not an object.  The source guards every read with
    [configuration &&], so null and undefined are never dereferenced. *)
Definition getProperty (σ : store) (v : Value) (k : string) : Value :=
  match v with
  | VObject l => default VUndefined (field σ l k)
  | _ => VUndefined
  end.

(** [shape.k = v] on the object at [l].  Every reference load meets comes
    from the store, so a write through a reference to nothing has no
    meaning; it changes nothing here. *)
Definition setProperty (l : loc) (k : string) (v : Value) (σ : store) : store :=
  alter (<[k := v]>) l σ.

(** Removing the property [k] from the object at [l]; used to compare a
    record with and without one of its fields. *)
Definition deleteProperty (l : loc) (k : string) (σ : store) : store :=
  alter (delete k) l σ.

(** ** Lines 77-88: copying the configuration onto a shape *)

(** [if (configuration && configuration.k) { shape.k = configuration.k; }] *)
Definition assignIfTruthy (k : string) (shape : loc) (configuration : Value)
    (σ : store) : store :=
  if toBoolean configuration && toBoolean (getProperty σ configuration k)
  then setProperty shape k (getProperty σ configuration k) σ
  else σ.

(** The four fields load knows about, in the order of the four [if]s. *)
Definition recognizedFields : list string :=
  ["attributes"; "highlightAttributes"; "pickDelegate"; "userProperties"].

Definition configureShape (shape : loc) (configuration : Value) (σ : store) : store :=
  let σ := assignIfTruthy "attributes" shape configuration σ in
  let σ := assignIfTruthy "highlightAttributes" shape configuration σ in
  let σ := assignIfTruthy "pickDelegate" shape configuration σ in
  let σ := assignIfTruthy "userProperties" shape configuration σ in
  σ.

(** The configuration leaves the field [k] out: it is not an object, or it is
    an object without an own property [k]. *)
Definition omitted (σ : store) (configuration : Value) (k : string) : Prop :=
  ∀ l, configuration = VObject l → field σ l k = None.

(** What lines 77-88 assign to the field [k]: the configuration's value for
    it, when the configuration and that value are truthy. *)
Definition assignedValue (σ : store) (configuration : Value) (k : string)
    : option Value :=
  if toBoolean configuration && toBoolean (getProperty σ configuration k)
  then Some (getProperty σ configuration k)
  else None.

(** An object after the four guarded assignments, given what they assign. *)
Definition configureObject (given : string → option Value) (o : obj) : obj :=
  foldl (λ o k, match given k with Some v => <[k := v]> o | None => o end)
        o recognizedFields.

(** Lines 77-88 for every shape of an array, with one configuration. *)
Definition configureAll (configuration : Value) (shapes : list loc) (σ : store)
    : store :=
  foldl (λ σ shape, configureShape shape configuration σ) σ shapes.

(** The objects behind a list of references. *)
Definition contents (σ : store) (ls : list loc) : list (option obj) :=
  (λ l, σ !! l) <$> ls.

(** From the store [σ] to the store [σ'] the property [k] of the object at
    [l] is left alone: if the object was there, it still is, and the property
    reads as before. *)
Definition kept (l : loc) (k : string) (σ σ' : store) : Prop :=
  is_Some (σ !! l) → is_Some (σ' !! l) ∧ field σ' l k = field σ l k.

(** A configuration that is an object is an object of the store. *)
Definition allocatedIn (σ : store) (configuration : Value) : Prop :=
  ∀ r, configuration = VObject r → is_Some (σ !! r).

(** ** Optional arguments *)

(** A JavaScript argument that the caller may leave out: [undefined], [null]
    or a supplied value. *)
Inductive Optional (A : Type) :=
| Undefined
| Null
| Supplied (a : A).
Arguments Undefined {A}.
Arguments Null {A}.
Arguments Supplied {A} a.

(** [x || d] for such an argument. *)
Definition orElse {A} (x : Optional A) (d : A) : A :=
  match x with
  | Supplied a => a
  | Undefined | Null => d
  end.

Definition isMissing {A} (x : Optional A) : bool :=
  match x with
  | Supplied _ => false
  | Undefined | Null => true
  end.

(** ** Computations: store, exceptions and the call log *)

Section Loader.

(** [Root] is the type of the parsed objects, [Exn] the type of the values
    that can be thrown. *)
Context {Root Exn : Type}.

Inductive Result (A : Type) :=
| Returned (a : A)
| Thrown (e : Exn).
Arguments Returned {A} a.
Arguments Thrown {A} e.

(** Code outside the file: it receives an argument and the store, and either
    returns or throws, leaving a store behind in both cases. *)
Definition Function (A B : Type) : Type := A → store → Result B * store.


(** A function that leaves the property [k] of the object at [l] alone. *)
Definition keeps {A B} (l : loc) (k : string) (f : Function A B) : Prop :=
  ∀ a σ, kept l k σ (f a σ).2.

(** A callback that never returns an object. *)
Definition returnsNoObject {A} (f : Function A Value) : Prop :=
  ∀ a σ c σ', f a σ = (Returned c, σ') → ∀ r, c ≠ VObject r.

(** A pure callback: it leaves the store as it is, and what it returns is a
    function of its argument. *)
Definition pureCallback {A} (f : Function A Value) (result : A → Value) : Prop :=
  ∀ a σ, f a σ = (Returned (result a), σ).

(** [function(){}] *)
Definition noop {A} : Function A Value := λ _ σ, (Returned VUndefined, σ).

(** The calls load makes, as they are logged.  The call of [shapes()] is
    logged together with what it gave back. *)
Inductive Event :=
| ShapesCalled (object : Root) (result : Result (list loc))
| ConfigurationCalled (object : Root)
| RenderablesAdded (shapes : list loc)
| CompletionCalled (shapes : list loc).

(** A computation runs from a store and yields a result, the store it leaves
    and the calls it made.  The store and the log survive an exception. *)
Definition M (A : Type) : Type := store → Result A * store * list Event.

#[local] Instance M_ret : MRet M := λ A a σ, (Returned a, σ, []).

#[local] Instance M_bind : MBind M := λ A B f m σ,
  match m σ with
  | (Returned a, σ1, t1) =>
      match f a σ1 with
      | (r, σ2, t2) => (r, σ2, t1 ++ t2)
      end
  | (Thrown e, σ1, t1) => (Thrown e, σ1, t1)
  end.

(** A pure step that may throw. *)
Definition complete {A} (r : Result A) : M A := λ σ, (r, σ, []).

(** An assignment to the store. *)
Definition update (f : store → store) : M unit := λ σ, (Returned tt, f σ, []).

(** A call that leaves the file, logged with its outcome. *)
Definition invoke {B} (log : Result B → Event) (f : store → Result B * store) : M B :=
  λ σ, match f σ with (r, σ') => (r, σ', [log r]) end.

(** [array.forEach] whose body updates a local variable: the variable is
    threaded through the iterations.  Nothing but load holds a reference to
    the arrays it iterates, so they are lists. *)
Fixpoint forEach {A S} (body : S → A → M S) (array : list A) (s : S) : M S :=
  match array with
  | [] => mret s
  | x :: rest => s' ← body s x; forEach body rest s'
  end.

(** ** The collaborators of load that are not in the file *)

(** [new WktTokens(text).objects()]: the parsed objects, or an exception.
    The tokenizer and the grammar parser are not part of [WktParser.js]; they
    work on the text alone, so a parse is a function of the text. *)
Context (WktTokens_objects : string → Result (list Root)).

(** [object.shapes()]: references to the shapes of a parsed object. *)
Context (shapes_of : Root → Function unit (list loc)).

(** Modelled from the spec: the shape materializer behind [object.shapes()]
    is a method of the geometry classes, which are not part of
    [WktParser.js]; the specification calls it deterministic and pure, with
    no mutation of the node.  Here: every call returns references to new
    objects, distinct from each other and from everything the store holds,
    changes no object of the store, and what the new objects are depends on
    the geometry alone. *)
Definition pureMaterializer (primitives : Root → list obj) : Prop :=
  ∀ object σ, ∃ ls σ',
    shapes_of object tt σ = (Returned ls, σ')
    ∧ NoDup ls
    ∧ (∀ l, l ∈ ls → σ !! l = None)
    ∧ (∀ l, l ∉ ls → σ' !! l = σ !! l)
    ∧ contents σ' ls = Some <$> primitives object.

(** A layer is anything with an [addRenderables] method. *)
Record RenderableLayer := { addRenderables : Function (list loc) Value }.

(** ** The parser object *)

Record WktParser := {
  objects : Optional (list Root);
  textRepresentation : string
}.

(** The constructor, lines 50-54. *)
Definition new_WktParser (textRepresentation : string) : WktParser :=
  {| objects := Null; textRepresentation := textRepresentation |}.

(** ** load, lines 67-98 *)

(** The body of the inner [forEach], lines 76-89. *)
Definition eachShape (shapeConfigurationCallback : Function Root Value)
    (object : Root) (shapes : list loc) (shape : loc) : M (list loc) :=
  configuration ← invoke (λ _, ConfigurationCalled object)
                         (shapeConfigurationCallback object);
  update (configureShape shape configuration);;
  mret (shapes ++ [shape]).

(** The body of the outer [forEach], lines 75-90. *)
Definition eachObject (shapeConfigurationCallback : Function Root Value)
    (shapes : list loc) (object : Root) : M (list loc) :=
  object_shapes ← invoke (ShapesCalled object) (shapes_of object tt);
  forEach (eachShape shapeConfigurationCallback object) object_shapes shapes.

(** Lines 73-91. *)
Definition collectShapes (shapeConfigurationCallback : Function Root Value)
    (objects : list Root) : M (list loc) :=
  forEach (eachObject shapeConfigurationCallback) objects [].

Definition load (this : WktParser)
    (parserCompletionCallback : Optional (Function (list loc) Value))
    (shapeConfigurationCallback : Optional (Function Root Value))
    (layer : RenderableLayer) : M (list Root) :=
  objects ← complete (WktTokens_objects (textRepresentation this));
  let shapeConfigurationCallback := orElse shapeConfigurationCallback noop in
  let parserCompletionCallback := orElse parserCompletionCallback noop in
  shapes ← collectShapes shapeConfigurationCallback objects;
  invoke (λ _, RenderablesAdded shapes) (addRenderables layer shapes);;
  invoke (λ _, CompletionCalled shapes) (parserCompletionCallback shapes);;
  mret objects.

(** ** The loops as a chain of calls *)

(** The inner loop ran to its end from [σ] to [σ']: for each shape in turn
    the callback [f] was called with the object, in the store the step
    before left; it returned, and the shape was configured with what it
    returned, in the store it left. *)
Fixpoint configuredEach (f : Function Root Value) (object : Root)
    (object_shapes : list loc) (σ σ' : store) : Prop :=
  match object_shapes with
  | [] => σ' = σ
  | shape :: rest =>
      ∃ configuration σ1,
        f object σ = (Returned configuration, σ1)
        ∧ configuredEach f object rest (configureShape shape configuration σ1) σ'
  end.

(** The outer loop ran to its end from [σ] to [σ']: for each object in turn
    [shapes()] returned its array, and the inner loop ran over that array
    with the callback [f]. *)
Fixpoint collectedEach (f : Function Root Value)
    (calls : list (Root * list loc)) (σ σ' : store) : Prop :=
  match calls with
  | [] => σ' = σ
  | (object, object_shapes) :: rest =>
      ∃ σ1 σ2,
        shapes_of object tt σ = (Returned object_shapes, σ1)
        ∧ configuredEach f object object_shapes σ1 σ2
        ∧ collectedEach f rest σ2 σ'
  end.

(** ** Reading the log *)


(** The calls of [shapes()] that returned, each with the array it returned. *)
Definition shapesReturned (log : list Event) : list (Root * list loc) :=
  omap (λ e, match e with
             | ShapesCalled o (Returned ls) => Some (o, ls)
             | _ => None
             end) log.

(** The arguments of the calls of the configuration callback. *)
Definition configurationCalls (log : list Event) : list Root :=
  omap (λ e, match e with ConfigurationCalled o => Some o | _ => None end) log.

(** The arguments of the calls of [layer.addRenderables]. *)
Definition renderablesAdded (log : list Event) : list (list loc) :=
  omap (λ e, match e with RenderablesAdded ls => Some ls | _ => None end) log.

(** The arguments of the calls of the completion callback. *)
Definition completionCalls (log : list Event) : list (list loc) :=
  omap (λ e, match e with CompletionCalled ls => Some ls | _ => None end) log.

(** What one completed iteration of the outer loop logs: the call of
    [shapes()], then one call of the configuration callback per shape. *)
Definition objectLog (object : Root) (object_shapes : list loc) : list Event :=
  ShapesCalled object (Returned object_shapes)
  :: map (λ _, ConfigurationCalled object) object_shapes.

Definition loopLog (calls : list (Root * list loc)) : list Event :=
  flat_map (λ c, objectLog c.1 c.2) calls.

(** The events of the loops, as opposed to the two calls that follow them. *)
Definition loopEvent (e : Event) : Prop :=
  match e with
  | ShapesCalled _ _ | ConfigurationCalled _ => True
  | RenderablesAdded _ | CompletionCalled _ => False
  end.

End Loader.

Arguments Result Exn A : clear implicits.
Arguments Returned {Exn A} a.
Arguments Thrown {Exn A} e.
Arguments Function Exn A B : clear implicits.
Arguments Event Root Exn : clear implicits.
Arguments M Root Exn A : clear implicits.
Arguments RenderableLayer Exn : clear implicits.
Arguments WktParser Root : clear implicits.

(** ** Allocation *)

(** A new object at a reference the store does not use yet. *)
Definition allocate (o : obj) (σ : store) : loc * store :=
  let l := fresh (dom σ) in (l, <[l := o]> σ).

Fixpoint allocateAll (os : list obj) (σ : store) : list loc * store :=
  match os with
  | [] => ([], σ)
  | o :: rest =>
      let '(l, σ1) := allocate o σ in
      let '(ls, σ2) := allocateAll rest σ1 in
      (l :: ls, σ2)
  end.

(** ** A concrete instance: the geometries and texts of the specification *)

Module Example.

(** Modelled from the spec: the dimensionality and the geometry node of the
    data model (the tokenizer, the grammar parser and the geometry classes
    are not part of [WktParser.js]).  A node is a tagged union over the seven
    kinds and a collection holds nodes of any kind.  An empty point has no
    coordinate, an empty line string or polygon has none either. *)
Inductive Dimensionality := XY | XYZ | XYM | XYZM.

Definition Coordinate := list spec_float.

#[local] Set Warnings "-register-all".
Inductive Geometry :=
| Point (d : Dimensionality) (coordinate : option Coordinate)
| LineString (d : Dimensionality) (coordinates : list Coordinate)
| Polygon (d : Dimensionality) (rings : list (list Coordinate))
| MultiPoint (d : Dimensionality) (members : list Geometry)
| MultiLineString (d : Dimensionality) (members : list Geometry)
| MultiPolygon (d : Dimensionality) (members : list Geometry)
| GeometryCollection (d : Dimensionality) (members : list Geometry).

(** A whole number as a double. *)
Definition number (z : Z) : spec_float :=
  match z with
  | Z0 => S754_zero false
  | Zpos p => S754_finite false p 0
  | Zneg p => S754_finite true p 0
  end.

(** Modelled from the spec: the shape materializer, which is a method of the
    geometry classes and not part of [WktParser.js].  A non-empty point gives
    one point marker, a non-empty line string one polyline, a non-empty
    polygon one filled polygon whose first ring is the boundary and whose
    other rings are holes; an empty geometry gives nothing; an aggregate or a
    collection gives the primitives of its members, in order.  A primitive is
    a fresh object; of its payload only the kind and the number of vertices
    or holes are kept here, since load never reads it. *)
Definition marker (c : Coordinate) : obj :=
  {[ "primitive" := VString "point marker";
     "components" := VNumber (number (Z.of_nat (length c))) ]}.

Definition polyline (cs : list Coordinate) : obj :=
  {[ "primitive" := VString "polyline";
     "vertices" := VNumber (number (Z.of_nat (length cs))) ]}.

Definition filledPolygon (rings : list (list Coordinate)) : obj :=
  {[ "primitive" := VString "filled polygon";
     "holes" := VNumber (number (Z.of_nat (length rings) - 1)) ]}.

Fixpoint primitives (g : Geometry) : list obj :=
  match g with
  | Point _ None => []
  | Point _ (Some c) => [marker c]
  | LineString _ [] => []
  | LineString _ cs => [polyline cs]
  | Polygon _ [] => []
  | Polygon _ rings => [filledPolygon rings]
  | MultiPoint _ members
  | MultiLineString _ members
  | MultiPolygon _ members
  | GeometryCollection _ members => flat_map primitives members
  end.

(** Modelled from the spec: the errors of the parsing engine. *)
Inductive Error :=
| LexError (character : ascii) (offset : nat)
| SyntaxError (expected found : string) (offset : nat).

Definition shapes (g : Geometry) : Function Error unit (list loc) :=
  λ _ σ, let '(ls, σ') := allocateAll (primitives g) σ in (Returned ls, σ').

Definition xy (x y : Z) : Coordinate := [number x; number y].

Definition point_19_23 : Geometry := Point XY (Some (xy 19 23)).
Definition point_empty : Geometry := Point XY None.
Definition collection : Geometry :=
  GeometryCollection XY
    [Point XY (Some (xy 1 2)); LineString XY [xy 0 0; xy 1 1]].

(** Modelled from the spec: the parses its testable properties list.  The
    grammar parser is not part of [WktParser.js]; this table answers the
    listed texts as the specification says and rejects every other text. *)
Definition parse (text : string) : Result Error (list Geometry) :=
  if String.eqb text "" then Returned []
  else if String.eqb text "POINT (19 23)" then Returned [point_19_23]
  else if String.eqb text "POINT EMPTY" then Returned [point_empty]
  else if String.eqb text "GEOMETRYCOLLECTION (POINT (1 2), LINESTRING (0 0, 1 1))"
       then Returned [collection]
  else if String.eqb text "POINT EMPTY POINT (19 23)"
       then Returned [point_empty; point_19_23]
  else if String.eqb text "LINESTRING (0 0)"
       then Thrown (SyntaxError "coordinate" ")" 15)
  else if String.eqb text "POINT (1 2"
       then Thrown (SyntaxError ")" "end of input" 10)
  else if String.eqb text "POINT (1 ?)"
       then Thrown (LexError "?"%char 9)
  else Thrown (SyntaxError "geometry type keyword" text 0).

(** A layer that keeps its renderables in the object at reference 1, under
    the property ["renderables"], as a count; enough to observe the call. *)
Definition layer : RenderableLayer Error :=
  {| addRenderables := λ shapes σ,
       (Returned VUndefined,
        setProperty 1%positive "renderables"
          (VNumber (number (Z.of_nat (length shapes)))) σ) |}.

(** The store before the call: the layer object, a bundle of attributes, and
    a configuration record that gives the attributes, leaves the highlight
    attributes and the user properties out, and has a null pick delegate. *)
Definition σ0 : store :=
  {[ 1%positive := {[ "renderables" := VNumber (number 0) ]};
     2%positive := {[ "fontColor" := VString "red" ]};
     3%positive := {[ "attributes" := VObject 2%positive; "pickDelegate" := VNull ]} ]}.

(** A configuration callback that returns that record for every object. *)
Definition configuration (g : Geometry) : Value := VObject 3%positive.

Definition configure : Function Error Geometry Value :=
  λ g σ, (Returned (configuration g), σ).

(** A completion callback that leaves a mark on the layer object. *)
Definition completed : Function Error (list loc) Value :=
  λ shapes σ, (Returned VUndefined, setProperty 1%positive "completed" (VBoolean true) σ).

Definition collectionText : string :=
  "GEOMETRYCOLLECTION (POINT (1 2), LINESTRING (0 0, 1 1))".

(** load on a text, with both callbacks, from the store above. *)
Definition run (text : string) :=
  load parse shapes (new_WktParser text) (Supplied completed) (Supplied configure)
    layer σ0.

(** The store above with one marker in it, at reference 4, and the iteration
    of the inner loop for that marker. *)
Definition σ1 : store := <[4%positive := marker (xy 19 23)]> σ0.

Definition step :=
  eachShape (Root:=Geometry) configure point_19_23 [] 4%positive σ1.

(** The store a first call of load leaves behind. *)
Definition σ2 : store := (run collectionText).1.2.

(** A second parser object for the same text, with a history in its
    [objects] field, and load on it from the store the first call left. *)
Definition parser2 : WktParser Geometry :=
  {| objects := Supplied [point_empty]; textRepresentation := collectionText |}.

Definition run2 :=
  load parse shapes parser2 (Supplied completed) (Supplied configure) layer σ2.

(** A configuration callback that gives the record once and throws when it
    is called again; it keeps count on the layer object. *)
Definition configureOnce : Function Error Geometry Value :=
  λ g σ,
    match field σ 1%positive "configured" with
    | Some _ => (Thrown (SyntaxError "one shape" "another shape" 0), σ)
    | None =>
        (Returned (configuration g),
         setProperty 1%positive "configured" (VBoolean true) σ)
    end.

Definition runOnce :=
  load parse shapes (new_WktParser collectionText) (Supplied completed)
    (Supplied configureOnce) layer σ0.

End Example.

(** * Properties *)

(** ** The store *)

Section Store.
Implicit Types (σ : store) (l shape : loc) (k : string) (c v : Value).

(** Two stores are equal when they allocate the same references and agree on
    every property. *)
Lemma store_ext σ1 σ2 :
  (∀ l, is_Some (σ1 !! l) ↔ is_Some (σ2 !! l)) →
  (∀ l k, field σ1 l k = field σ2 l k) →
  σ1 = σ2.
Proof.
  intros Hdom Hfield. apply map_eq. intros l.
  specialize (Hdom l). pose proof (Hfield l) as Hl. unfold field in Hl.
  destruct (σ1 !! l) as [o1|] eqn:E1, (σ2 !! l) as [o2|] eqn:E2; simpl in Hl.
  - f_equal. apply map_eq. exact Hl.
  - destruct Hdom as [Hdom _]. destruct Hdom; [eauto | discriminate].
  - destruct Hdom as [_ Hdom]. destruct Hdom; [eauto | discriminate].
  - reflexivity.
Qed.

Lemma allocated_setProperty σ l k v l' :
  is_Some (setProperty l k v σ !! l') ↔ is_Some (σ !! l').
Proof. apply lookup_alter_is_Some. Qed.

Lemma allocated_deleteProperty σ l k l' :
  is_Some (deleteProperty l k σ !! l') ↔ is_Some (σ !! l').
Proof. apply lookup_alter_is_Some. Qed.

Lemma field_setProperty σ l k v l' k' :
  field (setProperty l k v σ) l' k' =
  if decide (l' = l ∧ k' = k ∧ is_Some (σ !! l)) then Some v else field σ l' k'.
Proof.
  unfold field, setProperty. rewrite lookup_alter.
  destruct (decide (l = l')) as [<-|Hl].
  - destruct (σ !! l) as [o|] eqn:E; simpl.
    + rewrite lookup_insert. destruct (decide (k = k')) as [<-|Hk].
      * rewrite decide_True; [done | eauto].
      * rewrite decide_False; [done | intros (_ & ? & _); congruence].
    + rewrite decide_False; [done|]. intros (_ & _ & [? ?]). discriminate.
  - rewrite decide_False; [done | intros (? & _); congruence].
Qed.

Lemma field_deleteProperty σ l k l' k' :
  field (deleteProperty l k σ) l' k' =
  if decide (l' = l ∧ k' = k) then None else field σ l' k'.
Proof.
  unfold field, deleteProperty. rewrite lookup_alter.
  destruct (decide (l = l')) as [<-|Hl].
  - destruct (σ !! l) as [o|] eqn:E; simpl.
    + rewrite lookup_delete. destruct (decide (k = k')) as [<-|Hk].
      * rewrite decide_True; [done | eauto].
      * rewrite decide_False; [done | intros (_ & ?); congruence].
    + by case_decide.
  - rewrite decide_False; [done | intros (? & _); congruence].
Qed.

(** What a property read sees is what [field] holds. *)
Lemma getProperty_ext σ1 σ2 c k :
  (∀ l, c = VObject l → field σ1 l k = field σ2 l k) →
  getProperty σ1 c k = getProperty σ2 c k.
Proof. intros H. destruct c; simpl; try done. by rewrite (H l). Qed.

Lemma truthy_property_present σ l k :
  toBoolean (getProperty σ (VObject l) k) = true →
  field σ l k = Some (getProperty σ (VObject l) k).
Proof. simpl. by destruct (field σ l k). Qed.

(** One guarded assignment, as a function of the store before it. *)
Lemma field_assignIfTruthy σ k shape c l' k' :
  field (assignIfTruthy k shape c σ) l' k' =
  if decide (l' = shape ∧ k' = k ∧ is_Some (σ !! shape)
             ∧ toBoolean c && toBoolean (getProperty σ c k) = true)
  then Some (getProperty σ c k) else field σ l' k'.
Proof.
  unfold assignIfTruthy.
  destruct (toBoolean c && toBoolean (getProperty σ c k)) eqn:E.
  - rewrite field_setProperty. repeat case_decide; tauto.
  - rewrite decide_False; [done | intros (_ & _ & _ & ?); congruence].
Qed.

Lemma allocated_assignIfTruthy σ k shape c l' :
  is_Some (assignIfTruthy k shape c σ !! l') ↔ is_Some (σ !! l').
Proof.
  unfold assignIfTruthy. case_match; [apply allocated_setProperty | done].
Qed.

(** The assignment never changes what the configuration reads, not even when
    the configuration is the shape itself: it then writes back what it read. *)
Lemma getProperty_assignIfTruthy σ k shape c k' :
  getProperty (assignIfTruthy k shape c σ) c k' = getProperty σ c k'.
Proof.
  apply getProperty_ext. intros l ->. rewrite field_assignIfTruthy.
  case_decide as H; [|done]. destruct H as (-> & -> & _ & H).
  apply andb_true_iff in H as [_ H]. symmetry. by apply truthy_property_present.
Qed.

(** Lines 77-88 as a function of the store before them: a property of the
    shape is overwritten exactly when it is one of the four fields and the
    configuration and its value for that field are truthy. *)
Lemma field_configureShape σ shape c l k :
  field (configureShape shape c σ) l k =
  if decide (l = shape ∧ k ∈ recognizedFields ∧ is_Some (σ !! shape)
             ∧ toBoolean c && toBoolean (getProperty σ c k) = true)
  then Some (getProperty σ c k) else field σ l k.
Proof.
  unfold configureShape, recognizedFields.
  rewrite !field_assignIfTruthy, !getProperty_assignIfTruthy.
  assert (k ∈ ["attributes"; "highlightAttributes"; "pickDelegate"; "userProperties"]
          ↔ k = "attributes" ∨ k = "highlightAttributes"
            ∨ k = "pickDelegate" ∨ k = "userProperties") as Hk.
  { rewrite !elem_of_cons, elem_of_nil. tauto. }
  repeat case_decide;
    repeat match goal with
      | H : context [is_Some (assignIfTruthy _ _ _ _ !! _)] |- _ =>
          rewrite allocated_assignIfTruthy in H
      end;
    destruct_and?; simplify_eq; try done; exfalso; intuition congruence.
Qed.

Lemma allocated_configureShape σ shape c l :
  is_Some (configureShape shape c σ !! l) ↔ is_Some (σ !! l).
Proof. unfold configureShape. by rewrite !allocated_assignIfTruthy. Qed.

Lemma getProperty_configureShape σ shape c k :
  getProperty (configureShape shape c σ) c k = getProperty σ c k.
Proof. unfold configureShape. by rewrite !getProperty_assignIfTruthy. Qed.

(** A truthy read comes from an own property of an object. *)
Lemma truthy_getProperty σ c k :
  toBoolean (getProperty σ c k) = true →
  ∃ r, c = VObject r ∧ field σ r k = Some (getProperty σ c k).
Proof.
  destruct c; try discriminate. intros H. eexists. split; [done|].
  by apply truthy_property_present.
Qed.

Lemma getProperty_deleteProperty σ r k k' :
  getProperty (deleteProperty r k σ) (VObject r) k'
  = if decide (k' = k) then VUndefined else getProperty σ (VObject r) k'.
Proof.
  simpl. rewrite field_deleteProperty.
  destruct (decide (k' = k)) as [->|Hk].
  - by rewrite decide_True.
  - rewrite decide_False; [done | intros [_ ?]; congruence].
Qed.

(** C9: when the configuration is a record that has one of the four fields
    with a falsy value, load leaves that field of the shape as it is, and
    what it does is what it does for the record without the field: configuring
    the shape and removing the field from the record can be done in either
    order.  A field of the shape changes only if the record's value for it is
    truthy. *)
Theorem falsy_field_is_as_omitted σ shape r k v :
  k ∈ recognizedFields →
  field σ r k = Some v →
  toBoolean v = false →
  field (configureShape shape (VObject r) σ) shape k = field σ shape k
  ∧ configureShape shape (VObject r) (deleteProperty r k σ)
    = deleteProperty r k (configureShape shape (VObject r) σ)
  ∧ (∀ k', field (configureShape shape (VObject r) σ) shape k' ≠ field σ shape k' →
           toBoolean (getProperty σ (VObject r) k') = true).
Proof.
  intros _ Hpresent Hfalsy.
  assert (toBoolean (getProperty σ (VObject r) k) = false) as Hread.
  { simpl. by rewrite Hpresent. }
  split; [|split].
  - rewrite field_configureShape. case_decide as H; [|done].
    destruct H as (_ & _ & _ & H). rewrite Hread in H. discriminate.
  - apply store_ext.
    + intros l. by rewrite allocated_configureShape, !allocated_deleteProperty,
        allocated_configureShape.
    + intros l k'. rewrite field_configureShape, !field_deleteProperty,
        field_configureShape, getProperty_deleteProperty.
      destruct (decide (k' = k)) as [->|Hk].
      * rewrite (decide_False (P := _ ∧ _ ∧ _ ∧ _ && toBoolean VUndefined = true))
          by (intros (_ & _ & _ & H); discriminate).
        rewrite (decide_False (P := _ ∧ _ ∧ _ ∧ _ = true))
          by (intros (_ & _ & _ & H); rewrite Hread in H; discriminate).
        done.
      * rewrite (decide_False (P := l = r ∧ k' = k)) by (intros [_ ?]; congruence).
        repeat case_decide; try done; exfalso;
          match goal with
          | H : context [is_Some (deleteProperty _ _ _ !! _)] |- _ =>
              rewrite allocated_deleteProperty in H
          | H : ¬ _ |- _ => rewrite allocated_deleteProperty in H
          end; tauto.
  - intros k'. rewrite field_configureShape. case_decide as H; [|done].
    destruct H as (_ & _ & _ & H). intros _. simpl in H. exact H.
Qed.

(** *** The configured shape as an object *)

Lemma lookup_configureObject given (o : obj) k :
  configureObject given o !! k =
  match (if decide (k ∈ recognizedFields) then given k else None) with
  | Some v => Some v
  | None => o !! k
  end.
Proof.
  destruct (decide (k ∈ recognizedFields)) as [Hk|Hk];
    unfold configureObject, recognizedFields in *; simpl.
  - rewrite !elem_of_cons, elem_of_nil in Hk.
    destruct Hk as [->|[->|[->|[->|[]]]]];
      destruct (given "attributes"), (given "highlightAttributes"),
        (given "pickDelegate"), (given "userProperties");
      by rewrite ?lookup_insert.
  - rewrite !elem_of_cons, elem_of_nil in Hk.
    destruct (given "attributes"), (given "highlightAttributes"),
      (given "pickDelegate"), (given "userProperties");
      rewrite ?lookup_insert; repeat case_decide; try done;
      exfalso; intuition congruence.
Qed.

Lemma configureObject_ext given1 given2 (o : obj) :
  (∀ k, k ∈ recognizedFields → given1 k = given2 k) →
  configureObject given1 o = configureObject given2 o.
Proof.
  intros H. apply map_eq. intros k. rewrite !lookup_configureObject.
  case_decide; [by rewrite H | done].
Qed.

Lemma lookup_assignIfTruthy_ne σ k shape c l :
  l ≠ shape → assignIfTruthy k shape c σ !! l = σ !! l.
Proof.
  intros Hl. unfold assignIfTruthy, setProperty. case_match; [|done].
  by apply lookup_alter_ne.
Qed.

Lemma lookup_configureShape σ shape c l :
  configureShape shape c σ !! l =
  if decide (l = shape) then configureObject (assignedValue σ c) <$> σ !! shape
  else σ !! l.
Proof.
  case_decide as Hl.
  - subst l. pose proof (allocated_configureShape σ shape c shape) as Hdom.
    pose proof (λ k, field_configureShape σ shape c shape k) as Hfield.
    unfold field in Hfield.
    destruct (σ !! shape) as [o|] eqn:E, (configureShape shape c σ !! shape) as [o'|];
      simpl in *; try done.
    + f_equal. apply map_eq. intros k. rewrite Hfield, lookup_configureObject.
      unfold assignedValue. assert (is_Some (Some o)) as Ho by eauto.
      destruct (toBoolean c && toBoolean (getProperty σ c k));
        repeat case_decide; try done; exfalso; intuition congruence.
    + destruct Hdom as [_ Hdom]. destruct Hdom; [eauto | discriminate].
    + destruct Hdom as [Hdom _]. destruct Hdom; [eauto | discriminate].
  - unfold configureShape. by rewrite !lookup_assignIfTruthy_ne.
Qed.

Lemma assignedValue_configureShape σ shape c k :
  assignedValue (configureShape shape c σ) c k = assignedValue σ c k.
Proof. unfold assignedValue. by rewrite getProperty_configureShape. Qed.

(** An array of distinct shapes after its configuration. *)
Lemma lookup_configureAll c (ls : list loc) :
  NoDup ls →
  ∀ σ l, configureAll c ls σ !! l =
         if decide (l ∈ ls) then configureObject (assignedValue σ c) <$> σ !! l
         else σ !! l.
Proof.
  induction 1 as [|shape ls Hshape _ IH]; intros σ l.
  - case_decide as H; [by apply elem_of_nil in H | done].
  - change (configureAll c (shape :: ls) σ)
      with (configureAll c ls (configureShape shape c σ)).
    rewrite IH, lookup_configureShape.
    destruct (decide (l = shape)) as [->|Hl].
    + rewrite decide_False by done.
      by rewrite decide_True by apply list_elem_of_here.
    + destruct (decide (l ∈ ls)) as [Hin|Hin].
      * rewrite decide_True by by apply list_elem_of_further.
        destruct (σ !! l) as [o|]; [simpl|done].
        f_equal. apply configureObject_ext. intros k _.
        apply assignedValue_configureShape.
      * rewrite decide_False; [done|].
        intros [?|?]%elem_of_cons; done.
Qed.

End Store.

(** ** Computations *)

#[local] Existing Instances M_ret M_bind.

Section Computations.
Context {Root Exn : Type}.
#[local] Abbreviation M := (M Root Exn).

Lemma bind_run {A B} (m : M A) (f : A → M B) σ :
  (m ≫= f) σ =
  match m σ with
  | (Returned a, σ1, t1) => let '(r, σ2, t2) := f a σ1 in (r, σ2, t1 ++ t2)
  | (Thrown e, σ1, t1) => (Thrown e, σ1, t1)
  end.
Proof. reflexivity. Qed.

(** A sequence that returns ran both its parts to their ends. *)
Lemma bind_returned {A B} (m : M A) (f : A → M B) σ b σ' t :
  (m ≫= f) σ = (Returned b, σ', t) →
  ∃ a σ1 t1 t2,
    m σ = (Returned a, σ1, t1) ∧ f a σ1 = (Returned b, σ', t2) ∧ t = t1 ++ t2.
Proof.
  rewrite bind_run. destruct (m σ) as [[[a|e] σ1] t1]; [|discriminate].
  destruct (f a σ1) as [[r σ2] t2] eqn:E. intros [= -> -> <-].
  by exists a, σ1, t1, t2.
Qed.

(** An outcome is its three components. *)
Lemma outcome_eta {A} (out : Result Exn A * store * list (Event Root Exn)) r :
  out.1.1 = r → out = (r, out.1.2, out.2).
Proof. destruct out as [[? ?] ?]. simpl. by intros ->. Qed.

Lemma invoke_run {B} (log : Result Exn B → Event Root Exn) f σ :
  invoke log f σ = ((f σ).1, (f σ).2, [log (f σ).1]).
Proof. unfold invoke. by destruct (f σ). Qed.

End Computations.

(** ** The two loops *)

Section Loops.
Context {Root Exn : Type}.
Context (shapes_of : Root → Function Exn unit (list loc)).
Implicit Types (object : Root) (σ : store) (log : list (Event Root Exn)).
Implicit Types (shapeConfigurationCallback : Function Exn Root Value).

Lemma eachShape_run shapeConfigurationCallback object shapes shape σ :
  eachShape shapeConfigurationCallback object shapes shape σ =
  match shapeConfigurationCallback object σ with
  | (Returned configuration, σ1) =>
      (Returned (shapes ++ [shape]), configureShape shape configuration σ1,
       [ConfigurationCalled object])
  | (Thrown e, σ1) => (Thrown e, σ1, [ConfigurationCalled object])
  end.
Proof.
  unfold eachShape. rewrite bind_run, invoke_run.
  by destruct (shapeConfigurationCallback object σ) as [[c|e] σ1].
Qed.

Lemma forEach_cons {A S} (body : S → A → M Root Exn S) x rest s σ :
  forEach body (x :: rest) s σ = (body s x ≫= forEach body rest) σ.
Proof. reflexivity. Qed.

(** A loop logs only what its body logs. *)
Lemma forEach_log_Forall {A S} (P : Event Root Exn → Prop)
    (body : S → A → M Root Exn S) :
  (∀ s x σ, Forall P (body s x σ).2) →
  ∀ array s σ, Forall P (forEach body array s σ).2.
Proof.
  intros Hbody array. induction array as [|x rest IH]; intros s σ.
  - constructor.
  - rewrite forEach_cons, bind_run. specialize (Hbody s x σ).
    destruct (body s x σ) as [[[s'|e] σ1] t1]; [|done].
    specialize (IH s' σ1). destruct (forEach body rest s' σ1) as [[r σ2] t2].
    simpl in *. by apply Forall_app.
Qed.

(** The inner loop, when it completes: every shape is pushed, in order, and
    the callback was called once per shape. *)
Lemma shapes_forEach_returned shapeConfigurationCallback object object_shapes :
  ∀ shapes σ out σ' log,
  forEach (eachShape shapeConfigurationCallback object) object_shapes shapes σ
    = (Returned out, σ', log) →
  out = shapes ++ object_shapes
  ∧ log = map (λ _, ConfigurationCalled object) object_shapes.
Proof.
  induction object_shapes as [|shape rest IH]; intros shapes σ out σ' log.
  - intros [= <- <- <-]. by rewrite app_nil_r.
  - rewrite forEach_cons. intros (s1 & σ1 & t1 & t2 & Hshape & Hrest & ->)%bind_returned.
    rewrite eachShape_run in Hshape.
    destruct (shapeConfigurationCallback object σ) as [[c|e] σ0]; [|discriminate].
    injection Hshape as <- <- <-.
    apply IH in Hrest as [-> ->]. by rewrite <- app_assoc.
Qed.

Lemma eachObject_returned shapeConfigurationCallback shapes object σ out σ' log :
  eachObject shapes_of shapeConfigurationCallback shapes object σ
    = (Returned out, σ', log) →
  ∃ object_shapes, out = shapes ++ object_shapes ∧ log = objectLog object object_shapes.
Proof.
  unfold eachObject.
  intros (ls & σ1 & t1 & t2 & Hcall & Hloop & ->)%bind_returned.
  rewrite invoke_run in Hcall. injection Hcall as Hls _ <-.
  apply shapes_forEach_returned in Hloop as [-> ->].
  exists ls. by rewrite Hls.
Qed.

(** The outer loop, when it completes: the shapes are the arrays the objects
    returned, one after the other, and the log is that of one completed
    iteration per object. *)
Lemma collect_returned shapeConfigurationCallback objects :
  ∀ shapes σ out σ' log,
  forEach (eachObject shapes_of shapeConfigurationCallback) objects shapes σ
    = (Returned out, σ', log) →
  ∃ arrays, length arrays = length objects
    ∧ out = shapes ++ concat arrays
    ∧ log = loopLog (zip objects arrays).
Proof.
  induction objects as [|object rest IH]; intros shapes σ out σ' log.
  - intros [= <- <- <-]. exists []. by rewrite app_nil_r.
  - rewrite forEach_cons.
    intros (s1 & σ1 & t1 & t2 & Hobject & Hrest & ->)%bind_returned.
    apply eachObject_returned in Hobject as (ls & -> & ->).
    apply IH in Hrest as (arrays & Hlen & -> & ->).
    exists (ls :: arrays). simpl. rewrite Hlen, <- app_assoc. done.
Qed.

(** Whatever their outcome, the loops call neither the layer nor the
    completion callback. *)
Lemma collect_log shapeConfigurationCallback objects shapes σ :
  Forall loopEvent
    (forEach (eachObject shapes_of shapeConfigurationCallback) objects shapes σ).2.
Proof.
  apply forEach_log_Forall. clear. intros shapes object σ.
  unfold eachObject. rewrite bind_run, invoke_run.
  destruct (shapes_of object tt σ) as [[ls|e] σ1]; simpl; [|by repeat constructor].
  pose proof (forEach_log_Forall loopEvent
                (eachShape shapeConfigurationCallback object)) as H.
  specialize (H (λ s x σ, ltac:(rewrite eachShape_run;
    destruct (shapeConfigurationCallback object σ) as [[?|?] ?];
    by repeat constructor)) ls shapes σ1).
  destruct (forEach _ ls shapes σ1) as [[r σ2] t2]. simpl in *.
  by constructor.
Qed.

(** *** The loops as a chain of calls *)

Lemma shapes_forEach_chain shapeConfigurationCallback object object_shapes :
  ∀ shapes σ out σ' log,
  forEach (eachShape shapeConfigurationCallback object) object_shapes shapes σ
    = (Returned out, σ', log) →
  configuredEach shapeConfigurationCallback object object_shapes σ σ'.
Proof.
  induction object_shapes as [|shape rest IH]; intros shapes σ out σ' log.
  - by intros [= _ <- _].
  - rewrite forEach_cons.
    intros (s1 & σ1 & t1 & t2 & Hshape & Hrest & _)%bind_returned.
    rewrite eachShape_run in Hshape.
    destruct (shapeConfigurationCallback object σ) as [[c|e] σ0] eqn:Hcall;
      [|discriminate].
    injection Hshape as <- <- <-. apply IH in Hrest. simpl. by exists c, σ0.
Qed.

Lemma collect_chain shapeConfigurationCallback objects :
  ∀ shapes σ out σ' log,
  forEach (eachObject shapes_of shapeConfigurationCallback) objects shapes σ
    = (Returned out, σ', log) →
  ∃ arrays, length arrays = length objects
    ∧ out = shapes ++ concat arrays
    ∧ log = loopLog (zip objects arrays)
    ∧ collectedEach shapes_of shapeConfigurationCallback (zip objects arrays) σ σ'.
Proof.
  induction objects as [|object rest IH]; intros shapes σ out σ' log.
  - intros [= <- <- <-]. exists []. by rewrite app_nil_r.
  - rewrite forEach_cons.
    intros (s1 & σ1 & t1 & t2 & Hobject & Hrest & ->)%bind_returned.
    unfold eachObject in Hobject.
    apply bind_returned in Hobject as (ls & σ0 & t0 & t0' & Hcall & Hloop & ->).
    rewrite invoke_run in Hcall. injection Hcall as Hls Hσ0 <-.
    assert (shapes_of object tt σ = (Returned ls, σ0)) as Hshapes.
    { destruct (shapes_of object tt σ) as [r σr]. simpl in *. by subst. }
    pose proof (shapes_forEach_chain _ _ _ _ _ _ _ _ Hloop) as Hinner.
    apply shapes_forEach_returned in Hloop as [-> ->].
    apply IH in Hrest as (arrays & Hlen & -> & -> & Hchain).
    exists (ls :: arrays). simpl. rewrite Hlen, <- app_assoc.
    split; [done|]. split; [done|]. split.
    + unfold objectLog. by rewrite Hls.
    + by exists σ0, σ1.
Qed.

(** *** The loops with a pure callback and a pure materializer *)

Lemma shapes_forEach_pure shapeConfigurationCallback result object :
  pureCallback shapeConfigurationCallback result →
  ∀ object_shapes shapes σ,
  forEach (eachShape shapeConfigurationCallback object) object_shapes shapes σ
  = (Returned (shapes ++ object_shapes),
     configureAll (result object) object_shapes σ,
     map (λ _, ConfigurationCalled object) object_shapes).
Proof.
  intros Hpure. induction object_shapes as [|shape rest IH]; intros shapes σ.
  - simpl. by rewrite app_nil_r.
  - rewrite forEach_cons, bind_run, eachShape_run, Hpure, IH.
    by rewrite <- app_assoc.
Qed.

Lemma assignedValue_preserved σ σ' c k :
  (∀ r, c = VObject r → σ' !! r = σ !! r) →
  assignedValue σ' c k = assignedValue σ c k.
Proof.
  intros H. unfold assignedValue.
  assert (getProperty σ' c k = getProperty σ c k) as ->; [|done].
  apply getProperty_ext. intros r ->. unfold field. by rewrite H.
Qed.

Lemma collect_pure shapeConfigurationCallback result primitives
    (given_of : Root → string → option Value) :
  pureMaterializer shapes_of primitives →
  pureCallback shapeConfigurationCallback result →
  ∀ objects shapes σ,
  (∀ o, o ∈ objects →
        allocatedIn σ (result o)
        ∧ ∀ k, k ∈ recognizedFields → assignedValue σ (result o) k = given_of o k) →
  ∃ ls σ' log,
    forEach (eachObject shapes_of shapeConfigurationCallback) objects shapes σ
      = (Returned (shapes ++ ls), σ', log)
    ∧ (∀ l, is_Some (σ !! l) → σ' !! l = σ !! l)
    ∧ contents σ' ls
      = Some <$> (objects ≫= λ o, configureObject (given_of o) <$> primitives o).
Proof.
  intros Hmaterializer Hcallback objects.
  induction objects as [|object rest IH]; intros shapes σ Hconfigurations.
  { exists [], σ, []. by rewrite app_nil_r. }
  destruct (Hmaterializer object σ) as (ls & σm & Hcall & Hnodup & Hfresh & Hold & Hnew).
  set (c := result object).
  set (σ2 := configureAll c ls σm).
  assert (∀ l, is_Some (σ !! l) → l ∉ ls) as Hdisjoint.
  { intros l [o Ho] Hin. rewrite (Hfresh l Hin) in Ho. discriminate. }
  assert (∀ l, is_Some (σ !! l) → σ2 !! l = σ !! l) as Hkept.
  { intros l Hl. unfold σ2. rewrite lookup_configureAll by done.
    rewrite decide_False by by apply Hdisjoint. apply Hold. by apply Hdisjoint. }
  destruct (Hconfigurations object) as [Hallocated Hgiven];
    [apply list_elem_of_here|].
  assert (contents σ2 ls = Some <$> (configureObject (given_of object) <$> primitives object))
    as Hconfigured.
  { transitivity (fmap (M:=option) (configureObject (given_of object))
                    <$> contents σm ls).
    - unfold contents. rewrite <- list_fmap_compose.
      apply Forall_fmap_ext_1, Forall_forall. intros l Hl. simpl.
      unfold σ2. rewrite lookup_configureAll, decide_True by done.
      destruct (σm !! l) as [o|]; [simpl|done]. f_equal.
      apply configureObject_ext. intros k Hk. rewrite <- (Hgiven k Hk).
      apply assignedValue_preserved. intros r Hr.
      apply Hold, Hdisjoint, Hallocated, Hr.
    - rewrite Hnew, <- !list_fmap_compose. done. }
  destruct (IH (shapes ++ ls) σ2) as (ls' & σ' & log' & Hrest & Hkept' & Hcontents').
  { intros o Ho. destruct (Hconfigurations o) as [Ha Hg];
      [by apply list_elem_of_further|].
    split.
    - intros r Hr. rewrite Hkept; by apply Ha.
    - intros k Hk. rewrite <- (Hg k Hk). apply assignedValue_preserved.
      intros r Hr. apply Hkept, Ha, Hr. }
  eexists (ls ++ ls'), σ', _. split; [|split].
  - rewrite forEach_cons, bind_run. unfold eachObject at 1.
    rewrite bind_run, invoke_run, Hcall. simpl.
    rewrite (shapes_forEach_pure _ result) by done.
    fold c. fold σ2. rewrite Hrest. by rewrite <- app_assoc.
  - intros l Hl. rewrite Hkept', Hkept; [done..|]. by rewrite Hkept.
  - rewrite bind_cons, fmap_app. unfold contents at 1. rewrite fmap_app.
    fold (contents σ' ls). fold (contents σ' ls'). rewrite Hcontents'. f_equal.
    rewrite <- Hconfigured. unfold contents.
    apply Forall_fmap_ext_1, Forall_forall. intros l Hl. apply Hkept'.
    apply list_elem_of_lookup in Hl as [i Hi].
    assert (contents σ2 ls !! i = Some (σ2 !! l)) as Hi2.
    { unfold contents. by rewrite list_lookup_fmap, Hi. }
    rewrite Hconfigured, list_lookup_fmap in Hi2.
    destruct ((configureObject (given_of object) <$> primitives object) !! i);
      simpl in Hi2; [|discriminate].
    injection Hi2 as <-. eauto.
Qed.

(** C3: in the iteration for one shape, once the configuration callback has
    returned, load creates and removes no object, and changes a property only
    if it is one of the four fields, on that shape, and present in the record
    the callback returned, whose value it then takes.  Every other property
    of the shape, every one of the four fields the record leaves out, and
    every other object keeps its value. *)
Theorem configuration_assigns_only_given_fields shapeConfigurationCallback
    object shapes shape σ out σ' log :
  eachShape shapeConfigurationCallback object shapes shape σ
    = (Returned out, σ', log) →
  ∃ configuration σ1,
    shapeConfigurationCallback object σ = (Returned configuration, σ1)
    ∧ (∀ l, is_Some (σ' !! l) ↔ is_Some (σ1 !! l))
    ∧ (∀ l k, l ≠ shape ∨ k ∉ recognizedFields ∨ omitted σ1 configuration k →
              field σ' l k = field σ1 l k)
    ∧ (∀ l k, field σ' l k ≠ field σ1 l k →
              l = shape ∧ k ∈ recognizedFields
              ∧ ∃ record v, configuration = VObject record
                  ∧ field σ1 record k = Some v ∧ field σ' l k = Some v).
Proof.
  rewrite eachShape_run.
  destruct (shapeConfigurationCallback object σ) as [[c|e] σ1]; [|discriminate].
  intros [= <- <- <-]. exists c, σ1. split; [done|]. split; [|split].
  - intros l. apply allocated_configureShape.
  - intros l k Hframe. rewrite field_configureShape. case_decide as H; [|done].
    destruct H as (Hl & Hk & _ & (_ & Hread)%andb_true_iff).
    apply truthy_getProperty in Hread as (record & Hc & Hfield).
    destruct Hframe as [?|[?|Homitted]]; [done..|].
    rewrite (Homitted record Hc) in Hfield. discriminate.
  - intros l k. rewrite field_configureShape. case_decide as H; [|done].
    destruct H as (Hl & Hk & _ & (_ & Hread)%andb_true_iff). intros _.
    apply truthy_getProperty in Hread as (record & Hc & Hfield).
    split; [done|]. split; [done|]. by exists record, (getProperty σ1 c k).
Qed.

End Loops.

(** ** Reading the log of the loops *)

Section Log.
Context {Root Exn : Type}.
Implicit Types (object : Root) (log : list (Event Root Exn)).
Implicit Types (calls : list (Root * list loc)).

Lemma shapesReturned_app log1 log2 :
  shapesReturned (log1 ++ log2) = shapesReturned log1 ++ shapesReturned log2.
Proof. apply omap_app. Qed.


Lemma configurationCalls_app log1 log2 :
  configurationCalls (log1 ++ log2)
  = configurationCalls log1 ++ configurationCalls log2.
Proof. apply omap_app. Qed.

Lemma renderablesAdded_app log1 log2 :
  renderablesAdded (log1 ++ log2) = renderablesAdded log1 ++ renderablesAdded log2.
Proof. apply omap_app. Qed.

Lemma completionCalls_app log1 log2 :
  completionCalls (log1 ++ log2) = completionCalls log1 ++ completionCalls log2.
Proof. apply omap_app. Qed.

Lemma loopLog_cons object (ls : list loc) calls :
  loopLog (Exn:=Exn) ((object, ls) :: calls) = objectLog object ls ++ loopLog calls.
Proof. reflexivity. Qed.

Lemma shapesReturned_objectLog object (ls : list loc) :
  shapesReturned (objectLog (Exn:=Exn) object ls) = [(object, ls)].
Proof.
  unfold objectLog, shapesReturned. simpl. f_equal.
  induction ls as [|l ls IH]; [done | exact IH].
Qed.


Lemma configurationCalls_objectLog object (ls : list loc) :
  configurationCalls (objectLog (Exn:=Exn) object ls) = replicate (length ls) object.
Proof.
  unfold objectLog, configurationCalls. simpl.
  induction ls as [|l ls IH]; [done | simpl; by f_equal].
Qed.

Lemma shapesReturned_loopLog calls :
  shapesReturned (loopLog (Exn:=Exn) calls) = calls.
Proof.
  induction calls as [|[o ls] calls IH]; [done|].
  by rewrite loopLog_cons, shapesReturned_app, shapesReturned_objectLog, IH.
Qed.


Lemma configurationCalls_loopLog calls :
  configurationCalls (loopLog (Exn:=Exn) calls)
  = flat_map (λ c, replicate (length c.2) c.1) calls.
Proof.
  induction calls as [|[o ls] calls IH]; [done|].
  by rewrite loopLog_cons, configurationCalls_app,
    configurationCalls_objectLog, IH.
Qed.

Lemma loopLog_loopEvent calls : Forall loopEvent (loopLog (Exn:=Exn) calls).
Proof.
  induction calls as [|[o ls] calls IH]; [constructor|].
  rewrite loopLog_cons. apply Forall_app. split; [|exact IH].
  unfold objectLog. constructor; [done|].
  apply Forall_forall. intros e (? & -> & _)%list_elem_of_fmap. done.
Qed.

Lemma renderablesAdded_loop log : Forall loopEvent log → renderablesAdded log = [].
Proof.
  induction 1 as [|e log He _ IH]; [done|]. destruct e; try done; exact IH.
Qed.

Lemma completionCalls_loop log : Forall loopEvent log → completionCalls log = [].
Proof.
  induction 1 as [|e log He _ IH]; [done|]. destruct e; try done; exact IH.
Qed.

End Log.

(** ** load *)

Section Load.
Context {Root Exn : Type}.
Context (WktTokens_objects : string → Result Exn (list Root)).
Context (shapes_of : Root → Function Exn unit (list loc)).
Implicit Types (this : WktParser Root) (layer : RenderableLayer Exn).
Implicit Types (parserCompletionCallback : Optional (Function Exn (list loc) Value)).
Implicit Types (shapeConfigurationCallback : Optional (Function Exn Root Value)).
Implicit Types (σ : store) (log : list (Event Root Exn)) (objects : list Root).

(** load, one collaborator after the other. *)
Lemma load_run this parserCompletionCallback shapeConfigurationCallback layer σ :
  load WktTokens_objects shapes_of this parserCompletionCallback
    shapeConfigurationCallback layer σ =
  match WktTokens_objects (textRepresentation this) with
  | Thrown e => (Thrown e, σ, [])
  | Returned objects =>
    match collectShapes shapes_of (orElse shapeConfigurationCallback noop) objects σ with
    | (Thrown e, σ1, t1) => (Thrown e, σ1, t1)
    | (Returned shapes, σ1, t1) =>
      match addRenderables layer shapes σ1 with
      | (Thrown e, σ2) => (Thrown e, σ2, t1 ++ [RenderablesAdded shapes])
      | (Returned _, σ2) =>
        match orElse parserCompletionCallback noop shapes σ2 with
        | (Thrown e, σ3) =>
            (Thrown e, σ3, t1 ++ [RenderablesAdded shapes; CompletionCalled shapes])
        | (Returned _, σ3) =>
            (Returned objects, σ3,
             t1 ++ [RenderablesAdded shapes; CompletionCalled shapes])
        end
      end
    end
  end.
Proof.
  unfold load. rewrite bind_run. unfold complete.
  destruct (WktTokens_objects (textRepresentation this)) as [objects|e]; [|done].
  simpl. rewrite bind_run.
  destruct (collectShapes _ _ objects σ) as [[[shapes|e] σ1] t1]; [|done].
  rewrite bind_run, invoke_run.
  destruct (addRenderables layer shapes σ1) as [[v|e] σ2]; simpl; [|done].
  rewrite bind_run, invoke_run.
  by destruct (orElse parserCompletionCallback noop shapes σ2) as [[w|e] σ3].
Qed.


(** The log of any call whose text parsed, whatever its outcome: either the
    loops were left by an exception, or they completed and the layer was
    called, and after it the completion callback unless the layer threw. *)
Lemma load_log this parserCompletionCallback shapeConfigurationCallback
    layer σ objects :
  WktTokens_objects (textRepresentation this) = Returned objects →
  let log := (load WktTokens_objects shapes_of this parserCompletionCallback
                shapeConfigurationCallback layer σ).2 in
  Forall loopEvent log
  ∨ ∃ arrays, length arrays = length objects
      ∧ (log = loopLog (zip objects arrays) ++ [RenderablesAdded (concat arrays)]
         ∨ log = loopLog (zip objects arrays)
                 ++ [RenderablesAdded (concat arrays);
                     CompletionCalled (concat arrays)]).
Proof.
  intros Hparse. rewrite load_run, Hparse.
  pose proof (collect_log shapes_of (orElse shapeConfigurationCallback noop)
                objects [] σ) as Hloop.
  unfold collectShapes.
  destruct (forEach _ objects [] σ) as [[[shapes|e] σ1] t1] eqn:Hcollect;
    [|by left].
  apply collect_returned in Hcollect as (arrays & Hlen & -> & ->).
  right. exists arrays. split; [done|].
  destruct (addRenderables layer _ σ1) as [[v|e] σ2]; [|by left].
  destruct (orElse parserCompletionCallback noop _ σ2) as [[w|e] σ3]; by right.
Qed.

(** A call that returned, piece by piece: the parse, the loops as a chain of
    calls, the layer in the store the loops left, and the completion callback
    in the store the layer left, which leaves the final store. *)
Lemma load_returned_pieces this parserCompletionCallback
    shapeConfigurationCallback layer σ result σ' log :
  load WktTokens_objects shapes_of this parserCompletionCallback
    shapeConfigurationCallback layer σ = (Returned result, σ', log) →
  ∃ arrays σ1 v σ2 w,
    WktTokens_objects (textRepresentation this) = Returned result
    ∧ length arrays = length result
    ∧ log = loopLog (zip result arrays)
            ++ [RenderablesAdded (concat arrays); CompletionCalled (concat arrays)]
    ∧ collectShapes shapes_of (orElse shapeConfigurationCallback noop) result σ
      = (Returned (concat arrays), σ1, loopLog (zip result arrays))
    ∧ collectedEach shapes_of (orElse shapeConfigurationCallback noop)
        (zip result arrays) σ σ1
    ∧ addRenderables layer (concat arrays) σ1 = (Returned v, σ2)
    ∧ orElse parserCompletionCallback noop (concat arrays) σ2 = (Returned w, σ').
Proof.
  rewrite load_run.
  destruct (WktTokens_objects (textRepresentation this)) as [objects|e]; [|done].
  destruct (collectShapes _ _ objects σ) as [[[shapes|e] σ1] t1] eqn:Hloop; [|done].
  destruct (addRenderables layer shapes σ1) as [[v|e] σ2] eqn:Hlayer; [|done].
  destruct (orElse parserCompletionCallback noop shapes σ2) as [[w|e] σ3]
    eqn:Hcompletion; [|done].
  intros [= <- <- <-].
  pose proof Hloop as Hloop'.
  apply collect_chain in Hloop' as (arrays & Hlen & Hshapes & Hlog & Hchain).
  simpl in Hshapes. subst shapes t1.
  by exists arrays, σ1, v, σ2, w.
Qed.


(** C5: when parsing the text fails, load passes the exception on to its
    caller and has done nothing else: the store is as it was, and the log is
    empty, so nothing was added to the layer and neither callback was
    called. *)
Theorem parse_error_is_propagated this parserCompletionCallback
    shapeConfigurationCallback layer σ e :
  WktTokens_objects (textRepresentation this) = Thrown e →
  load WktTokens_objects shapes_of this parserCompletionCallback
    shapeConfigurationCallback layer σ = (Thrown e, σ, []).
Proof. intros Hparse. by rewrite load_run, Hparse. Qed.


(** C1, as the code has it: a call of load that returns has called the
    configuration callback once per shape, not once per parsed object.  The
    argument of each call is the object the shape came from, so an object
    whose [shapes()] returned n shapes is passed n times in a row, and an
    object without shapes is never passed.  The calls are calls of the
    callback the caller supplied: for each object in turn its [shapes()]
    returned, and for each returned shape in turn the supplied callback was
    run on the object, in the store the step before left, and the shape was
    configured with what it returned; the layer is then called in the store
    this chain leaves. *)
Theorem configuration_callback_called_once_per_shape this
    parserCompletionCallback shapeConfigurationCallback layer σ objects σ' log :
  load WktTokens_objects shapes_of this parserCompletionCallback
    shapeConfigurationCallback layer σ = (Returned objects, σ', log) →
  (shapesReturned log).*1 = objects
  ∧ configurationCalls log
    = flat_map (λ call, replicate (length call.2) call.1) (shapesReturned log)
  ∧ ∃ σ1 v σ2,
      (∀ f, shapeConfigurationCallback = Supplied f →
            collectedEach shapes_of f (shapesReturned log) σ σ1)
      ∧ addRenderables layer (concat (shapesReturned log).*2) σ1
        = (Returned v, σ2).
Proof.
  intros (arrays & σ1 & v & σ2 & w & _ & Hlen & -> & _ & Hchain & Hlayer & _)
    %load_returned_pieces.
  rewrite shapesReturned_app, configurationCalls_app.
  rewrite shapesReturned_loopLog, configurationCalls_loopLog.
  simpl. rewrite !app_nil_r. split; [apply fst_zip; lia|]. split; [done|].
  exists σ1, v, σ2. rewrite snd_zip by lia. split; [|done].
  by intros f ->.
Qed.

(** C2: a call of load that returns has called the completion callback
    exactly once, as the last thing it did: every call of [shapes()] and of
    the configuration callback comes before it, and so does the call that
    adds the shapes to the layer.  Its argument is the list of all the shapes
    the parsed objects returned, in order.  The call is a call of the
    callback the caller supplied: it was run on that list in the store the
    layer left, it returned, and the store it left is the one load leaves;
    without a completion callback the store the layer left is the one load
    leaves. *)
Theorem completion_callback_called_once_at_the_end this
    parserCompletionCallback shapeConfigurationCallback layer σ objects σ' log :
  load WktTokens_objects shapes_of this parserCompletionCallback
    shapeConfigurationCallback layer σ = (Returned objects, σ', log) →
  ∃ before shapes,
    log = before ++ [RenderablesAdded shapes; CompletionCalled shapes]
    ∧ Forall loopEvent before
    ∧ (shapesReturned before).*1 = objects
    ∧ shapes = concat (shapesReturned before).*2
    ∧ completionCalls log = [shapes]
    ∧ ∃ σ1 v σ2,
        (∀ f, shapeConfigurationCallback = Supplied f →
              collectedEach shapes_of f (shapesReturned before) σ σ1)
        ∧ addRenderables layer shapes σ1 = (Returned v, σ2)
        ∧ (∀ g, parserCompletionCallback = Supplied g →
                ∃ w, g shapes σ2 = (Returned w, σ'))
        ∧ (isMissing parserCompletionCallback = true → σ' = σ2).
Proof.
  intros (arrays & σ1 & v & σ2 & w & _ & Hlen & -> & _ & Hchain & Hlayer & Hdone)
    %load_returned_pieces.
  exists (loopLog (zip objects arrays)), (concat arrays).
  split; [done|]. split; [apply loopLog_loopEvent|].
  rewrite shapesReturned_loopLog, fst_zip, snd_zip by lia.
  split; [done|]. split; [done|]. split.
  - rewrite completionCalls_app, completionCalls_loop by apply loopLog_loopEvent.
    done.
  - exists σ1, v, σ2. split; [by intros f ->|]. split; [done|]. split.
    + intros g ->. by exists w.
    + destruct parserCompletionCallback; try done; by injection Hdone.
Qed.


(** C10: a call of load that returns has called [layer.addRenderables]
    exactly once, and the completion callback after it with the same array,
    which holds the shapes the parsed objects returned.  The layer's method
    was run on that array in the store the loops left, and the completion
    callback the caller supplied was run on it in the store the layer left.
    When the text holds no geometry the array is empty, the layer is called
    in the store load started from, and both are still called. *)
Theorem addRenderables_called_once_with_the_same_array this
    parserCompletionCallback shapeConfigurationCallback layer σ objects σ' log :
  load WktTokens_objects shapes_of this parserCompletionCallback
    shapeConfigurationCallback layer σ = (Returned objects, σ', log) →
  ∃ shapes σ1 v σ2,
    renderablesAdded log = [shapes]
    ∧ completionCalls log = [shapes]
    ∧ (∃ before, log = before ++ [RenderablesAdded shapes; CompletionCalled shapes])
    ∧ (shapesReturned log).*1 = objects
    ∧ shapes = concat (shapesReturned log).*2
    ∧ (∀ f, shapeConfigurationCallback = Supplied f →
            collectedEach shapes_of f (shapesReturned log) σ σ1)
    ∧ addRenderables layer shapes σ1 = (Returned v, σ2)
    ∧ (∀ g, parserCompletionCallback = Supplied g →
            ∃ w, g shapes σ2 = (Returned w, σ'))
    ∧ (isMissing parserCompletionCallback = true → σ' = σ2)
    ∧ (objects = [] →
       shapes = [] ∧ σ1 = σ
       ∧ log = [RenderablesAdded []; CompletionCalled []]).
Proof.
  intros (arrays & σ1 & v & σ2 & w & _ & Hlen & -> & _ & Hchain & Hlayer & Hdone)
    %load_returned_pieces.
  pose proof (loopLog_loopEvent (Exn:=Exn) (zip objects arrays)) as Hloop.
  exists (concat arrays), σ1, v, σ2.
  rewrite renderablesAdded_app, completionCalls_app,
    renderablesAdded_loop, completionCalls_loop by done.
  rewrite shapesReturned_app, shapesReturned_loopLog. simpl.
  rewrite app_nil_r, fst_zip, snd_zip by lia.
  split; [done|]. split; [done|]. split; [by eexists|].
  split; [done|]. split; [done|]. split; [by intros f ->|].
  split; [done|]. split; [intros g ->; by exists w|]. split.
  - destruct parserCompletionCallback; try done; by injection Hdone.
  - intros ->. destruct arrays; [|done]. simpl in Hchain. by subst.
Qed.

(** C8: a completion callback or a configuration callback that is null or
    undefined is replaced by a function that does nothing, whatever the other
    one is: the call then has the outcome, the store and the log of the call
    that passes [function(){}] in its place, so it throws only if that call
    throws. *)
Theorem missing_callbacks_are_noops this parserCompletionCallback
    shapeConfigurationCallback layer σ :
  (isMissing parserCompletionCallback = true →
   load WktTokens_objects shapes_of this parserCompletionCallback
     shapeConfigurationCallback layer σ
   = load WktTokens_objects shapes_of this (Supplied noop)
       shapeConfigurationCallback layer σ)
  ∧ (isMissing shapeConfigurationCallback = true →
     load WktTokens_objects shapes_of this parserCompletionCallback
       shapeConfigurationCallback layer σ
     = load WktTokens_objects shapes_of this parserCompletionCallback
         (Supplied noop) layer σ).
Proof.
  split; intros Hmissing.
  - by destruct parserCompletionCallback.
  - by destruct shapeConfigurationCallback.
Qed.

(** C7: the pipeline keeps no state from one invocation to the next.  Take
    two invocations of load that return: on parser objects with the same
    text, whatever their [objects] fields hold, with the same pure
    configuration callback and a pure materializer, with whatever layers and
    completion callbacks, from any two stores in which the configurations
    the callback returns are objects of the store with the same values for
    the four fields.  They return the same parsed objects, and the shape
    lists they hand to their layers and completion callbacks are equal,
    object for object, in the stores in which the layers receive them. *)
Theorem pipeline_is_deterministic this that
    (configurationCallback : Function Exn Root Value) result primitives
    completion_a completion_b layer_a layer_b
    σa σb objects_a σa' log_a objects_b σb' log_b :
  pureMaterializer shapes_of primitives →
  pureCallback configurationCallback result →
  textRepresentation this = textRepresentation that →
  (∀ o, o ∈ objects_a →
        allocatedIn σa (result o) ∧ allocatedIn σb (result o)
        ∧ ∀ k, k ∈ recognizedFields →
               getProperty σa (result o) k = getProperty σb (result o) k) →
  load WktTokens_objects shapes_of this completion_a
    (Supplied configurationCallback) layer_a σa = (Returned objects_a, σa', log_a) →
  load WktTokens_objects shapes_of that completion_b
    (Supplied configurationCallback) layer_b σb = (Returned objects_b, σb', log_b) →
  objects_a = objects_b
  ∧ ∃ shapes_a σ1a shapes_b σ1b,
      (renderablesAdded log_a = [shapes_a] ∧ completionCalls log_a = [shapes_a])
      ∧ (renderablesAdded log_b = [shapes_b] ∧ completionCalls log_b = [shapes_b])
      ∧ collectedEach shapes_of configurationCallback (shapesReturned log_a) σa σ1a
      ∧ collectedEach shapes_of configurationCallback (shapesReturned log_b) σb σ1b
      ∧ (∃ v σ2, addRenderables layer_a shapes_a σ1a = (Returned v, σ2))
      ∧ (∃ v σ2, addRenderables layer_b shapes_b σ1b = (Returned v, σ2))
      ∧ contents σ1a shapes_a = contents σ1b shapes_b.
Proof.
  intros Hmaterializer Hcallback Htext Hagree
    (arrays_a & σ1a & va & σ2a & wa & Hparse_a & Hlen_a & -> & Hrun_a & Hchain_a
     & Hlayer_a & _)%load_returned_pieces
    (arrays_b & σ1b & vb & σ2b & wb & Hparse_b & Hlen_b & -> & Hrun_b & Hchain_b
     & Hlayer_b & _)%load_returned_pieces.
  rewrite Htext, Hparse_b in Hparse_a. injection Hparse_a as <-.
  split; [done|]. simpl in Hrun_a, Hrun_b, Hchain_a, Hchain_b.
  set (given_of := λ o, assignedValue σa (result o)).
  destruct (collect_pure shapes_of configurationCallback result primitives
              given_of Hmaterializer Hcallback objects_b [] σa)
    as (la & σa1 & ta & Ha & _ & Hcontents_a).
  { intros o Ho. destruct (Hagree o Ho) as (? & _ & _). by split. }
  destruct (collect_pure shapes_of configurationCallback result primitives
              given_of Hmaterializer Hcallback objects_b [] σb)
    as (lb & σb1 & tb & Hb & _ & Hcontents_b).
  { intros o Ho. destruct (Hagree o Ho) as (_ & ? & Hreads). split; [done|].
    intros k Hk. unfold given_of, assignedValue. by rewrite (Hreads k Hk). }
  unfold collectShapes in Hrun_a, Hrun_b.
  rewrite Hrun_a in Ha. injection Ha as <- <- <-.
  rewrite Hrun_b in Hb. injection Hb as <- <- <-.
  pose proof (loopLog_loopEvent (Exn:=Exn) (zip objects_b arrays_a)) as Hloop_a.
  pose proof (loopLog_loopEvent (Exn:=Exn) (zip objects_b arrays_b)) as Hloop_b.
  exists (concat arrays_a), σ1a, (concat arrays_b), σ1b.
  rewrite !renderablesAdded_app, !completionCalls_app.
  rewrite (renderablesAdded_loop _ Hloop_a), (renderablesAdded_loop _ Hloop_b),
    (completionCalls_loop _ Hloop_a), (completionCalls_loop _ Hloop_b).
  rewrite !shapesReturned_app, !shapesReturned_loopLog. simpl.
  rewrite !app_nil_r.
  split; [by split|]. split; [by split|]. split; [done|]. split; [done|].
  split; [by exists va, σ2a|]. split; [by exists vb, σ2b|].
  by rewrite Hcontents_a, Hcontents_b.
Qed.

End Load.

(** ** The concrete instance *)

Lemma allocateAll_fresh (os : list obj) :
  ∀ σ ls σ', allocateAll os σ = (ls, σ') →
  NoDup ls
  ∧ (∀ l, l ∈ ls → σ !! l = None)
  ∧ (∀ l, l ∉ ls → σ' !! l = σ !! l)
  ∧ contents σ' ls = Some <$> os.
Proof.
  induction os as [|o rest IH]; intros σ ls σ'; simpl.
  - intros [= <- <-]. split; [constructor|]. split; [|done].
    intros l Hl. by apply elem_of_nil in Hl.
  - destruct (allocateAll rest (<[fresh (dom σ) := o]> σ)) as [ls' σ2] eqn:Hrest.
    intros [= <- <-]. apply IH in Hrest as (Hnodup & Hfresh & Hold & Hnew).
    assert (fresh (dom σ) ∉ ls') as Hhead.
    { intros Hin. apply Hfresh in Hin. by rewrite lookup_insert_eq in Hin. }
    split; [by constructor|]. split; [|split].
    + intros l [->|Hl]%elem_of_cons.
      * apply not_elem_of_dom, is_fresh.
      * apply Hfresh in Hl. by apply lookup_insert_None in Hl as [? _].
    + intros l [Hne Hl]%not_elem_of_cons.
      rewrite Hold by done. by rewrite lookup_insert_ne.
    + change (σ2 !! fresh (dom σ) :: contents σ2 ls' = Some o :: (Some <$> rest)).
      rewrite Hnew, Hold by done. by rewrite lookup_insert_eq.
Qed.

Lemma example_shapes_pure :
  pureMaterializer Example.shapes Example.primitives.
Proof.
  intros g σ. unfold Example.shapes.
  destruct (allocateAll (Example.primitives g) σ) as [ls σ'] eqn:H.
  exists ls, σ'. split; [done|]. by apply allocateAll_fresh.
Qed.

Lemma example_configure_pure :
  pureCallback Example.configure Example.configuration.
Proof. by intros g σ. Qed.

(** ** The theorems at the concrete instance *)

(** C1 as the specification has it, with the configuration callback called
    once per parsed object, fails on the code.  The collection of the specification's examples
    is one object with two shapes, and the callback is called twice with it,
    once for each shape, which both receive the attributes of its record;
    the empty point is one object without shapes, and the callback is not
    called at all. *)
Lemma configuration_callback_once_per_object_fails :
  ((Example.run Example.collectionText).1.1 = Returned [Example.collection]
   ∧ configurationCalls (Example.run Example.collectionText).2
     = [Example.collection; Example.collection]
   ∧ configurationCalls (Example.run Example.collectionText).2
     ≠ [Example.collection]
   ∧ field (Example.run Example.collectionText).1.2 4%positive "attributes"
     = Some (VObject 2%positive)
   ∧ field (Example.run Example.collectionText).1.2 5%positive "attributes"
     = Some (VObject 2%positive))
  ∧ ((Example.run "POINT EMPTY").1.1 = Returned [Example.point_empty]
     ∧ configurationCalls (Example.run "POINT EMPTY").2 = []
     ∧ configurationCalls (Example.run "POINT EMPTY").2 ≠ [Example.point_empty]).
Proof.
  split.
  - split; [vm_compute; reflexivity|]. split; [vm_compute; reflexivity|].
    split; [vm_compute; discriminate|].
    split; vm_compute; reflexivity.
  - split; [vm_compute; reflexivity|]. split; [vm_compute; reflexivity|].
    vm_compute; discriminate.
Qed.

(** The collection: one object, two shapes, two calls with that object. *)
Lemma configuration_callback_called_once_per_shape_witness :
  Example.run Example.collectionText
  = (Returned [Example.collection],
     (Example.run Example.collectionText).1.2,
     (Example.run Example.collectionText).2)
  ∧ (shapesReturned (Example.run Example.collectionText).2).*1
    = [Example.collection]
  ∧ configurationCalls (Example.run Example.collectionText).2
    = flat_map (λ call, replicate (length call.2) call.1)
        (shapesReturned (Example.run Example.collectionText).2)
  ∧ ∃ σ1 v σ2,
      (∀ f, Supplied Example.configure = Supplied f →
            collectedEach Example.shapes f
              (shapesReturned (Example.run Example.collectionText).2)
              Example.σ0 σ1)
      ∧ addRenderables Example.layer
          (concat (shapesReturned (Example.run Example.collectionText).2).*2) σ1
        = (Returned v, σ2).
Proof.
  assert (Example.run Example.collectionText
          = (Returned [Example.collection],
             (Example.run Example.collectionText).1.2,
             (Example.run Example.collectionText).2)) as H
    by (apply (outcome_eta (Example.run Example.collectionText)
                 (Returned [Example.collection]));
        vm_compute; reflexivity).
  split; [exact H|].
  exact (configuration_callback_called_once_per_shape Example.parse Example.shapes
           _ _ _ _ _ _ _ _ H).
Defined.

(** The collection again: the log ends with the layer and the completion
    callback, both on the two shapes. *)
Lemma completion_callback_called_once_at_the_end_witness :
  Example.run Example.collectionText
  = (Returned [Example.collection],
     (Example.run Example.collectionText).1.2,
     (Example.run Example.collectionText).2)
  ∧ ∃ before shapes,
      (Example.run Example.collectionText).2
      = before ++ [RenderablesAdded shapes; CompletionCalled shapes]
      ∧ Forall loopEvent before
      ∧ (shapesReturned before).*1 = [Example.collection]
      ∧ shapes = concat (shapesReturned before).*2
      ∧ completionCalls (Example.run Example.collectionText).2 = [shapes]
      ∧ ∃ σ1 v σ2,
          (∀ f, Supplied Example.configure = Supplied f →
                collectedEach Example.shapes f (shapesReturned before)
                  Example.σ0 σ1)
          ∧ addRenderables Example.layer shapes σ1 = (Returned v, σ2)
          ∧ (∀ g, Supplied Example.completed = Supplied g →
                  ∃ w, g shapes σ2
                       = (Returned w, (Example.run Example.collectionText).1.2))
          ∧ (isMissing (Supplied Example.completed) = true →
             (Example.run Example.collectionText).1.2 = σ2).
Proof.
  assert (Example.run Example.collectionText
          = (Returned [Example.collection],
             (Example.run Example.collectionText).1.2,
             (Example.run Example.collectionText).2)) as H
    by (apply (outcome_eta (Example.run Example.collectionText)
                 (Returned [Example.collection]));
        vm_compute; reflexivity).
  split; [exact H|].
  exact (completion_callback_called_once_at_the_end Example.parse Example.shapes
           _ _ _ _ _ _ _ _ H).
Defined.

(** The empty text: no object, an empty array for the layer and for the
    completion callback. *)
Lemma addRenderables_called_once_with_the_same_array_witness :
  Example.run ""
  = (Returned [], (Example.run "").1.2, (Example.run "").2)
  ∧ ∃ shapes σ1 v σ2,
      renderablesAdded (Example.run "").2 = [shapes]
      ∧ completionCalls (Example.run "").2 = [shapes]
      ∧ (∃ before, (Example.run "").2
                   = before ++ [RenderablesAdded shapes; CompletionCalled shapes])
      ∧ (shapesReturned (Example.run "").2).*1 = []
      ∧ shapes = concat (shapesReturned (Example.run "").2).*2
      ∧ (∀ f, Supplied Example.configure = Supplied f →
              collectedEach Example.shapes f (shapesReturned (Example.run "").2)
                Example.σ0 σ1)
      ∧ addRenderables Example.layer shapes σ1 = (Returned v, σ2)
      ∧ (∀ g, Supplied Example.completed = Supplied g →
              ∃ w, g shapes σ2 = (Returned w, (Example.run "").1.2))
      ∧ (isMissing (Supplied Example.completed) = true →
         (Example.run "").1.2 = σ2)
      ∧ (@nil Example.Geometry = [] →
         shapes = [] ∧ σ1 = Example.σ0
         ∧ (Example.run "").2 = [RenderablesAdded []; CompletionCalled []]).
Proof.
  assert (Example.run "" = (Returned [], (Example.run "").1.2, (Example.run "").2))
    as H by (apply (outcome_eta (Example.run "") (Returned []));
             vm_compute; reflexivity).
  split; [exact H|].
  exact (addRenderables_called_once_with_the_same_array Example.parse Example.shapes
           _ _ _ _ _ _ _ _ H).
Defined.


(** The text without its closing parenthesis. *)
Lemma parse_error_is_propagated_witness :
  Example.parse "POINT (1 2" = Thrown (Example.SyntaxError ")" "end of input" 10)
  ∧ Example.run "POINT (1 2"
    = (Thrown (Example.SyntaxError ")" "end of input" 10), Example.σ0, []).
Proof.
  assert (Example.parse "POINT (1 2"
          = Thrown (Example.SyntaxError ")" "end of input" 10)) as H
    by (vm_compute; reflexivity).
  split; [exact H|].
  exact (parse_error_is_propagated Example.parse Example.shapes
           (new_WktParser "POINT (1 2") (Supplied Example.completed)
           (Supplied Example.configure) Example.layer Example.σ0 _ H).
Defined.


(** [parser.load(null, undefined, layer)], the simplest usage of the class
    comment. *)
Lemma missing_callbacks_are_noops_witness :
  (isMissing (A:=Function Example.Error (list loc) Value) Null = true →
   load Example.parse Example.shapes (new_WktParser "POINT (19 23)")
     Null Undefined Example.layer Example.σ0
   = load Example.parse Example.shapes (new_WktParser "POINT (19 23)")
       (Supplied noop) Undefined Example.layer Example.σ0)
  ∧ (isMissing (A:=Function Example.Error Example.Geometry Value) Undefined = true →
     load Example.parse Example.shapes (new_WktParser "POINT (19 23)")
       Null Undefined Example.layer Example.σ0
     = load Example.parse Example.shapes (new_WktParser "POINT (19 23)")
         Null (Supplied noop) Example.layer Example.σ0).
Proof.
  exact (missing_callbacks_are_noops Example.parse Example.shapes
           (new_WktParser "POINT (19 23)") Null Undefined Example.layer Example.σ0).
Defined.

(** The iteration for a marker, with a record that gives the attributes. *)
Lemma configuration_assigns_only_given_fields_witness :
  Example.step = (Returned [4%positive], Example.step.1.2, Example.step.2)
  ∧ ∃ configuration σ1,
      Example.configure Example.point_19_23 Example.σ1 = (Returned configuration, σ1)
      ∧ (∀ l, is_Some (Example.step.1.2 !! l) ↔ is_Some (σ1 !! l))
      ∧ (∀ l k, l ≠ 4%positive ∨ k ∉ recognizedFields ∨ omitted σ1 configuration k →
                field Example.step.1.2 l k = field σ1 l k)
      ∧ (∀ l k, field Example.step.1.2 l k ≠ field σ1 l k →
                l = 4%positive ∧ k ∈ recognizedFields
                ∧ ∃ record v, configuration = VObject record
                    ∧ field σ1 record k = Some v
                    ∧ field Example.step.1.2 l k = Some v).
Proof.
  assert (Example.step = (Returned [4%positive], Example.step.1.2, Example.step.2))
    as H by (apply (outcome_eta Example.step (Returned [4%positive]));
             vm_compute; reflexivity).
  split; [exact H|].
  exact (configuration_assigns_only_given_fields Example.configure
           Example.point_19_23 [] 4%positive Example.σ1 _ _ _ H).
Defined.

(** The null pick delegate of the record is as good as none. *)
Lemma falsy_field_is_as_omitted_witness :
  "pickDelegate" ∈ recognizedFields
  ∧ field Example.σ1 3%positive "pickDelegate" = Some VNull
  ∧ toBoolean VNull = false
  ∧ field (configureShape 4%positive (VObject 3%positive) Example.σ1)
          4%positive "pickDelegate"
    = field Example.σ1 4%positive "pickDelegate"
  ∧ configureShape 4%positive (VObject 3%positive)
      (deleteProperty 3%positive "pickDelegate" Example.σ1)
    = deleteProperty 3%positive "pickDelegate"
        (configureShape 4%positive (VObject 3%positive) Example.σ1)
  ∧ (∀ k', field (configureShape 4%positive (VObject 3%positive) Example.σ1)
                 4%positive k'
           ≠ field Example.σ1 4%positive k' →
           toBoolean (getProperty Example.σ1 (VObject 3%positive) k') = true).
Proof.
  assert ("pickDelegate" ∈ recognizedFields) as Hk
    by (unfold recognizedFields; rewrite !elem_of_cons; tauto).
  assert (field Example.σ1 3%positive "pickDelegate" = Some VNull) as Hfield
    by (vm_compute; reflexivity).
  split; [exact Hk|]. split; [exact Hfield|]. split; [reflexivity|].
  exact (falsy_field_is_as_omitted Example.σ1 4%positive 3%positive
           "pickDelegate" VNull Hk Hfield eq_refl).
Defined.

(** The record is the same before and after a first call of load. *)
Lemma example_configurations_agree o :
  o ∈ [Example.collection] →
  allocatedIn Example.σ0 (Example.configuration o)
  ∧ allocatedIn Example.σ2 (Example.configuration o)
  ∧ ∀ k, k ∈ recognizedFields →
         getProperty Example.σ0 (Example.configuration o) k
         = getProperty Example.σ2 (Example.configuration o) k.
Proof.
  intros _. split; [|split].
  - intros r [= <-]. apply (bool_decide_unpack _). vm_compute. exact I.
  - intros r [= <-]. apply (bool_decide_unpack _). vm_compute. exact I.
  - intros k Hk. unfold recognizedFields in Hk.
    rewrite !elem_of_cons, elem_of_nil in Hk.
    destruct Hk as [->|[->|[->|[->|[]]]]]; vm_compute; reflexivity.
Defined.

(** Two calls in a row, on two parser objects for the same text: the second
    starts from the store the first left behind, and hands equal shapes to
    the layer. *)
Lemma pipeline_is_deterministic_witness :
  pureMaterializer Example.shapes Example.primitives
  ∧ pureCallback Example.configure Example.configuration
  ∧ textRepresentation (new_WktParser (Root:=Example.Geometry) Example.collectionText)
    = textRepresentation Example.parser2
  ∧ Example.run Example.collectionText
    = (Returned [Example.collection],
       (Example.run Example.collectionText).1.2,
       (Example.run Example.collectionText).2)
  ∧ Example.run2
    = (Returned [Example.collection], Example.run2.1.2, Example.run2.2)
  ∧ [Example.collection] = [Example.collection]
  ∧ ∃ shapes_a σ1a shapes_b σ1b,
      (renderablesAdded (Example.run Example.collectionText).2 = [shapes_a]
       ∧ completionCalls (Example.run Example.collectionText).2 = [shapes_a])
      ∧ (renderablesAdded Example.run2.2 = [shapes_b]
         ∧ completionCalls Example.run2.2 = [shapes_b])
      ∧ collectedEach Example.shapes Example.configure
          (shapesReturned (Example.run Example.collectionText).2) Example.σ0 σ1a
      ∧ collectedEach Example.shapes Example.configure
          (shapesReturned Example.run2.2) Example.σ2 σ1b
      ∧ (∃ v σ2, addRenderables Example.layer shapes_a σ1a = (Returned v, σ2))
      ∧ (∃ v σ2, addRenderables Example.layer shapes_b σ1b = (Returned v, σ2))
      ∧ contents σ1a shapes_a = contents σ1b shapes_b.
Proof.
  assert (Example.run Example.collectionText
          = (Returned [Example.collection],
             (Example.run Example.collectionText).1.2,
             (Example.run Example.collectionText).2)) as H
    by (apply (outcome_eta (Example.run Example.collectionText)
                 (Returned [Example.collection]));
        vm_compute; reflexivity).
  assert (Example.run2
          = (Returned [Example.collection], Example.run2.1.2, Example.run2.2))
    as H2
    by (apply (outcome_eta Example.run2 (Returned [Example.collection]));
        vm_compute; reflexivity).
  split; [exact example_shapes_pure|]. split; [exact example_configure_pure|].
  split; [reflexivity|]. split; [exact H|]. split; [exact H2|].
  exact (pipeline_is_deterministic Example.parse Example.shapes
           (new_WktParser Example.collectionText) Example.parser2
           Example.configure Example.configuration Example.primitives
           (Supplied Example.completed) (Supplied Example.completed)
           Example.layer Example.layer Example.σ0 Example.σ2
           [Example.collection] _ _ [Example.collection] _ _
           example_shapes_pure example_configure_pure eq_refl
           example_configurations_agree H H2).
Defined.

(** * Further properties of the code *)

(** ** Lines 77-88 *)

Section Assignments.
Implicit Types (σ : store) (l shape : loc) (k : string) (c v : Value).

(** A field the record gives is taken over: on a shape of the store, when
    the configuration and its value for one of the four fields are truthy,
    the shape's field holds that value afterwards, and the shape and the
    configuration read the same for it. *)
Theorem truthy_field_is_assigned σ shape c k :
  is_Some (σ !! shape) →
  k ∈ recognizedFields →
  toBoolean c = true →
  toBoolean (getProperty σ c k) = true →
  field (configureShape shape c σ) shape k = Some (getProperty σ c k)
  ∧ getProperty (configureShape shape c σ) (VObject shape) k
    = getProperty (configureShape shape c σ) c k.
Proof.
  intros Hshape Hk Hc Hv.
  assert (field (configureShape shape c σ) shape k = Some (getProperty σ c k)) as H.
  { rewrite field_configureShape, decide_True; [done|].
    repeat split; try done. by rewrite Hc, Hv. }
  split; [exact H|]. rewrite getProperty_configureShape. simpl. by rewrite H.
Qed.

(** Configuring a shape a second time with the same configuration changes
    nothing: the four assignments are idempotent, also when the configuration
    is the shape itself. *)
Theorem configuring_twice_is_configuring_once σ shape c :
  configureShape shape c (configureShape shape c σ) = configureShape shape c σ.
Proof.
  apply store_ext.
  - intros l. by rewrite !allocated_configureShape.
  - intros l k.
    rewrite (field_configureShape (configureShape shape c σ)).
    rewrite getProperty_configureShape, (field_configureShape σ).
    repeat case_decide; try done; exfalso;
      repeat match goal with
        | H : context [is_Some (configureShape _ _ _ !! _)] |- _ =>
            rewrite allocated_configureShape in H
        end; tauto.
Qed.

End Assignments.

(** ** The loops, whatever their outcome *)

Section Iterations.
Context {Root Exn : Type}.
Context (shapes_of : Root → Function Exn unit (list loc)).
Implicit Types (object : Root) (σ : store) (log : list (Event Root Exn)).
Implicit Types (shapeConfigurationCallback : Function Exn Root Value).

Lemma forEach_app {A S} (body : S → A → M Root Exn S) xs ys :
  ∀ s σ, forEach body (xs ++ ys) s σ
         = (forEach body xs s ≫= forEach body ys) σ.
Proof.
  induction xs as [|x xs IH]; intros s σ.
  - rewrite bind_run. simpl. by destruct (forEach body ys s σ) as [[r σ'] t].
  - change ((x :: xs) ++ ys) with (x :: (xs ++ ys)).
    rewrite forEach_cons, (bind_run (forEach body (x :: xs) s)), forEach_cons,
      !bind_run.
    destruct (body s x σ) as [[[s'|e] σ1] t1]; [|done].
    rewrite IH, bind_run.
    destruct (forEach body xs s' σ1) as [[[s''|e] σ2] t2]; [|done].
    destruct (forEach body ys s'' σ2) as [[r σ3] t3]. by rewrite app_assoc.
Qed.

(** A loop whose body appends to the shapes collected so far appends to
    them as a whole. *)
Lemma forEach_accumulates {A} (body : list loc → A → M Root Exn (list loc)) :
  (∀ shapes x σ,
     body shapes x σ =
     match body [] x σ with
     | (Returned s, σ', t) => (Returned (shapes ++ s), σ', t)
     | (Thrown e, σ', t) => (Thrown e, σ', t)
     end) →
  ∀ array shapes σ,
    forEach body array shapes σ =
    match forEach body array [] σ with
    | (Returned s, σ', t) => (Returned (shapes ++ s), σ', t)
    | (Thrown e, σ', t) => (Thrown e, σ', t)
    end.
Proof.
  intros Hbody array. induction array as [|x rest IH]; intros shapes σ.
  - simpl. by rewrite app_nil_r.
  - rewrite !forEach_cons, !bind_run, (Hbody shapes).
    destruct (body [] x σ) as [[[s|e] σ1] t1]; [|done].
    rewrite (IH (shapes ++ s)), (IH s).
    destruct (forEach body rest [] σ1) as [[[u|e] σ2] t2]; [|done].
    by rewrite app_assoc.
Qed.

Lemma eachObject_accumulates shapeConfigurationCallback shapes object σ :
  eachObject shapes_of shapeConfigurationCallback shapes object σ =
  match eachObject shapes_of shapeConfigurationCallback [] object σ with
  | (Returned s, σ', t) => (Returned (shapes ++ s), σ', t)
  | (Thrown e, σ', t) => (Thrown e, σ', t)
  end.
Proof.
  unfold eachObject. rewrite !bind_run, !invoke_run.
  destruct (shapes_of object tt σ) as [[ls|e] σ1]; simpl; [|done].
  rewrite (forEach_accumulates (eachShape shapeConfigurationCallback object)).
  - by destruct (forEach _ ls [] σ1) as [[[s|e] σ2] t2].
  - clear. intros shapes shape σ. rewrite !eachShape_run.
    by destruct (shapeConfigurationCallback object σ) as [[c|e] σ1].
Qed.

(** The objects of a text can be taken in two runs: collecting the shapes of
    a list of objects is collecting those of its first part and then, from
    the store that leaves behind, those of the rest.  The shapes and the
    logs are the two runs' one after the other, and an exception in the
    first part ends the whole. *)
Theorem collecting_splits shapeConfigurationCallback (first rest : list Root) σ :
  collectShapes shapes_of shapeConfigurationCallback (first ++ rest) σ =
  match collectShapes shapes_of shapeConfigurationCallback first σ with
  | (Returned shapes1, σ1, log1) =>
      match collectShapes shapes_of shapeConfigurationCallback rest σ1 with
      | (Returned shapes2, σ2, log2) =>
          (Returned (shapes1 ++ shapes2), σ2, log1 ++ log2)
      | (Thrown e, σ2, log2) => (Thrown e, σ2, log1 ++ log2)
      end
  | (Thrown e, σ1, log1) => (Thrown e, σ1, log1)
  end.
Proof.
  unfold collectShapes. rewrite forEach_app, bind_run.
  destruct (forEach _ first [] σ) as [[[shapes1|e] σ1] log1]; [|done].
  rewrite (forEach_accumulates (eachObject shapes_of shapeConfigurationCallback))
    by (intros; apply eachObject_accumulates).
  by destruct (forEach _ rest [] σ1) as [[[shapes2|e] σ2] log2].
Qed.

(** An exception that leaves the inner loop is one the configuration
    callback threw, at the last call of the log. *)
Lemma shapes_forEach_thrown shapeConfigurationCallback object object_shapes :
  ∀ shapes σ e σ' log,
  forEach (eachShape shapeConfigurationCallback object) object_shapes shapes σ
    = (Thrown e, σ', log) →
  ∃ before σ1,
    log = before ++ [ConfigurationCalled object]
    ∧ shapeConfigurationCallback object σ1 = (Thrown e, σ').
Proof.
  induction object_shapes as [|shape rest IH]; intros shapes σ e σ' log.
  - discriminate.
  - rewrite forEach_cons, bind_run, eachShape_run.
    destruct (shapeConfigurationCallback object σ) as [[c|e'] σ0] eqn:Hcall.
    + destruct (forEach _ rest _ _) as [[r σ2] t2] eqn:Hrest.
      intros [= -> -> <-]. apply IH in Hrest as (before & σ1 & -> & Hthrow).
      exists (ConfigurationCalled object :: before), σ1. by split.
    + intros [= <- <- <-]. exists [], σ. by split.
Qed.

(** An exception that leaves the outer loop is one [shapes()] or the
    configuration callback threw, at the last call of the log. *)
Lemma collect_thrown shapeConfigurationCallback (objects : list Root) :
  ∀ shapes σ e σ' log,
  forEach (eachObject shapes_of shapeConfigurationCallback) objects shapes σ
    = (Thrown e, σ', log) →
  ∃ before object σ1,
    object ∈ objects
    ∧ ((log = before ++ [ShapesCalled object (Thrown e)]
        ∧ shapes_of object tt σ1 = (Thrown e, σ'))
       ∨ (log = before ++ [ConfigurationCalled object]
          ∧ shapeConfigurationCallback object σ1 = (Thrown e, σ'))).
Proof.
  induction objects as [|object rest IH]; intros shapes σ e σ' log.
  - discriminate.
  - rewrite forEach_cons, bind_run.
    destruct (eachObject _ _ shapes object σ) as [[[s|e'] σ0] t0] eqn:Hobject.
    + destruct (forEach _ rest s σ0) as [[r σ2] t2] eqn:Hrest.
      intros [= -> -> <-].
      apply IH in Hrest as (before & o & σ1 & Ho & H).
      exists (t0 ++ before), o, σ1. split; [by apply list_elem_of_further|].
      rewrite <- !app_assoc. destruct H as [[-> ?]|[-> ?]]; [by left | by right].
    + intros [= <- <- <-]. unfold eachObject in Hobject.
      rewrite bind_run, invoke_run in Hobject.
      destruct (shapes_of object tt σ) as [[ls|e''] σ1] eqn:Hcall; simpl in Hobject.
      * destruct (forEach _ ls shapes σ1) as [[r σ2] t2] eqn:Hinner.
        injection Hobject as -> -> <-.
        apply shapes_forEach_thrown in Hinner as (before & σ3 & -> & Hthrow).
        exists (ShapesCalled object (Returned ls) :: before), object, σ3.
        split; [apply list_elem_of_here|]. by right.
      * injection Hobject as <- <- <-.
        exists [], object, σ. split; [apply list_elem_of_here|]. by left.
Qed.

(** *** What the loops leave alone *)

Lemma kept_refl l k σ : kept l k σ σ.
Proof. by intros ?. Qed.

Lemma kept_trans l k σ1 σ2 σ3 : kept l k σ1 σ2 → kept l k σ2 σ3 → kept l k σ1 σ3.
Proof.
  intros H12 H23 H1. destruct (H12 H1) as [H2 E12].
  destruct (H23 H2) as [H3 E23]. split; [done | congruence].
Qed.

Lemma kept_configureShape l k σ shape c :
  k ∉ recognizedFields ∨ l ≠ shape ∨ (∀ r, c ≠ VObject r) →
  kept l k σ (configureShape shape c σ).
Proof.
  intros Hframe Hl. split; [by apply allocated_configureShape|].
  rewrite field_configureShape. case_decide as H; [|done].
  destruct H as (? & ? & _ & (_ & Hread)%andb_true_iff).
  apply truthy_getProperty in Hread as (r & ? & _).
  destruct Hframe as [?|[?|Hc]]; [done..|]. by destruct (Hc r).
Qed.

Lemma shapes_forEach_kept l k shapeConfigurationCallback object object_shapes :
  keeps l k shapeConfigurationCallback →
  k ∉ recognizedFields ∨ l ∉ object_shapes
    ∨ returnsNoObject shapeConfigurationCallback →
  ∀ shapes σ,
    kept l k σ
      (forEach (eachShape shapeConfigurationCallback object) object_shapes
         shapes σ).1.2.
Proof.
  intros Hkeeps. induction object_shapes as [|shape rest IH]; intros Hframe shapes σ.
  - apply kept_refl.
  - rewrite forEach_cons, bind_run, eachShape_run.
    pose proof (Hkeeps object σ) as Hcall.
    destruct (shapeConfigurationCallback object σ) as [[c|e] σ1] eqn:E; [|exact Hcall].
    assert (kept l k σ1 (configureShape shape c σ1)) as Hstep.
    { apply kept_configureShape.
      destruct Hframe as [?|[Hl|Hc]]; [by left | | right; right; by eapply Hc].
      right; left. intros ->. apply Hl, list_elem_of_here. }
    assert (kept l k (configureShape shape c σ1)
              (forEach (eachShape shapeConfigurationCallback object) rest
                 (shapes ++ [shape]) (configureShape shape c σ1)).1.2) as Hrest.
    { apply IH. destruct Hframe as [?|[Hl|?]]; [by left | | by right; right].
      right; left. intros ?. by apply Hl, list_elem_of_further. }
    destruct (forEach _ rest _ _) as [[r σ2] t2]. simpl in *.
    eapply kept_trans; [exact Hcall|]. eapply kept_trans; [exact Hstep | exact Hrest].
Qed.

Lemma collect_kept l k shapeConfigurationCallback (objects : list Root) :
  (∀ object, keeps l k (shapes_of object)) →
  keeps l k shapeConfigurationCallback →
  ∀ shapes σ,
    let out := forEach (eachObject shapes_of shapeConfigurationCallback)
                 objects shapes σ in
    k ∉ recognizedFields ∨ l ∉ concat (shapesReturned out.2).*2
      ∨ returnsNoObject shapeConfigurationCallback →
    kept l k σ out.1.2.
Proof.
  intros Hshapes Hkeeps.
  induction objects as [|object rest IH]; intros shapes σ out Hframe.
  - apply kept_refl.
  - unfold out in *. clear out. revert Hframe.
    rewrite forEach_cons, bind_run. unfold eachObject at 1 3.
    rewrite bind_run, invoke_run.
    pose proof (Hshapes object tt σ) as Hcall.
    destruct (shapes_of object tt σ) as [[ls|e] σ1]; simpl; [|by intros _].
    pose proof (shapes_forEach_kept l k shapeConfigurationCallback object ls
                  Hkeeps) as Hinner.
    specialize (λ H, Hinner H shapes σ1).
    destruct (forEach _ ls shapes σ1) as [[[s|e] σ2] t2]; simpl in *.
    + specialize (IH s σ2).
      destruct (forEach _ rest s σ2) as [[r σ3] t3]. simpl in *.
      intros Hframe.
      change (ShapesCalled object (Returned ls) :: t2 ++ t3)
        with ([ShapesCalled object (Returned ls)] ++ t2 ++ t3) in Hframe.
      rewrite !shapesReturned_app, !fmap_app, !concat_app in Hframe.
      simpl in Hframe. rewrite ?app_nil_r in Hframe.
      eapply kept_trans; [exact Hcall|]. eapply kept_trans.
      * apply Hinner. destruct Hframe as [?|[Hl|?]]; [by left | | by right; right].
        right; left. intros ?. apply Hl. apply elem_of_app. by left.
      * apply IH. destruct Hframe as [?|[Hl|?]]; [by left | | by right; right].
        right; left. intros ?. apply Hl. rewrite !elem_of_app. by right; right.
    + intros Hframe.
      eapply kept_trans; [exact Hcall|].
      apply Hinner. destruct Hframe as [?|[Hl|?]]; [by left | | by right; right].
      right; left. intros ?. apply Hl. apply elem_of_app. by left.
Qed.

End Iterations.

(** ** The calls of load, whatever its outcome *)

Section Calls.
Context {Root Exn : Type}.
Context (WktTokens_objects : string → Result Exn (list Root)).
Context (shapes_of : Root → Function Exn unit (list loc)).
Implicit Types (this : WktParser Root) (layer : RenderableLayer Exn).
Implicit Types (parserCompletionCallback : Optional (Function Exn (list loc) Value)).
Implicit Types (shapeConfigurationCallback : Optional (Function Exn Root Value)).
Implicit Types (σ : store) (log : list (Event Root Exn)) (objects : list Root).

(** Whether load returns or throws, it calls [layer.addRenderables] at most
    once and the completion callback at most once, and it calls the
    completion callback only after the layer, with the list the layer got. *)
Theorem layer_and_completion_called_at_most_once this parserCompletionCallback
    shapeConfigurationCallback layer σ :
  let log := (load WktTokens_objects shapes_of this parserCompletionCallback
                shapeConfigurationCallback layer σ).2 in
  (renderablesAdded log = [] ∧ completionCalls log = [])
  ∨ ∃ shapes, renderablesAdded log = [shapes]
      ∧ (completionCalls log = [] ∨ completionCalls log = [shapes]).
Proof.
  destruct (WktTokens_objects (textRepresentation this)) as [objects|e] eqn:Hparse.
  - intros log.
    destruct (load_log WktTokens_objects shapes_of this parserCompletionCallback
                shapeConfigurationCallback layer σ objects Hparse)
      as [Hloop | (arrays & _ & Hlog)]; [fold log in Hloop | fold log in Hlog].
    + left. by rewrite renderablesAdded_loop, completionCalls_loop.
    + right. exists (concat arrays).
      pose proof (loopLog_loopEvent (Exn:=Exn) (zip objects arrays)) as Hloop.
      destruct Hlog as [-> | ->];
        rewrite renderablesAdded_app, completionCalls_app,
          renderablesAdded_loop, completionCalls_loop by done;
        (split; [done|]); [by left | by right].
  - intros log. left. unfold log. by rewrite load_run, Hparse.
Qed.

(** A call that returns, in full.  Its log is, for each parsed object in
    turn, the call of its [shapes()] followed by one call of the
    configuration callback per shape it returned, then the layer, then the
    completion callback, both on the concatenation of the returned arrays; so
    an object is asked for its shapes only when the shapes of the objects
    before it have been configured.  The calls are those of the collaborators
    the caller passed: the supplied configuration callback ran along the
    loops, the layer's method in the store the loops left, the supplied
    completion callback in the store the layer left, and the store it left
    is the one load leaves. *)
Theorem log_of_a_returning_call this parserCompletionCallback
    shapeConfigurationCallback layer σ objects σ' log :
  load WktTokens_objects shapes_of this parserCompletionCallback
    shapeConfigurationCallback layer σ = (Returned objects, σ', log) →
  ∃ arrays,
    length arrays = length objects
    ∧ log = loopLog (zip objects arrays)
            ++ [RenderablesAdded (concat arrays); CompletionCalled (concat arrays)]
    ∧ ∃ σ1 v σ2,
        (∀ f, shapeConfigurationCallback = Supplied f →
              collectedEach shapes_of f (zip objects arrays) σ σ1)
        ∧ (isMissing shapeConfigurationCallback = true →
           collectedEach shapes_of noop (zip objects arrays) σ σ1)
        ∧ addRenderables layer (concat arrays) σ1 = (Returned v, σ2)
        ∧ (∀ g, parserCompletionCallback = Supplied g →
                ∃ w, g (concat arrays) σ2 = (Returned w, σ'))
        ∧ (isMissing parserCompletionCallback = true → σ' = σ2).
Proof.
  intros (arrays & σ1 & v & σ2 & w & _ & Hlen & -> & _ & Hchain & Hlayer & Hdone)
    %load_returned_pieces.
  exists arrays. split; [done|]. split; [done|].
  exists σ1, v, σ2. split; [by intros f ->|]. split.
  { by destruct shapeConfigurationCallback. }
  split; [done|]. split.
  - intros g ->. by exists w.
  - destruct parserCompletionCallback; try done; by injection Hdone.
Qed.

(** Exceptions, for arguments of the documented types (a layer with an
    [addRenderables] method, callbacks that are functions, null or
    undefined).  load has no [try]: an exception that leaves it was thrown
    by the parse, by a [shapes()], by the supplied configuration callback, by
    the layer or by the supplied completion callback, in the last call of the
    log, and the store is as that call left it; a missing callback is never
    the one that throws.  After an exception in the loops the layer and the
    completion callback have not been called; after one in the layer the
    completion callback has not been called. *)
Theorem an_exception_comes_from_a_collaborator this parserCompletionCallback
    shapeConfigurationCallback layer σ e σ' log :
  load WktTokens_objects shapes_of this parserCompletionCallback
    shapeConfigurationCallback layer σ = (Thrown e, σ', log) →
  (WktTokens_objects (textRepresentation this) = Thrown e ∧ σ' = σ ∧ log = [])
  ∨ (Forall loopEvent log
     ∧ ∃ before object σ1,
         (log = before ++ [ShapesCalled object (Thrown e)]
          ∧ shapes_of object tt σ1 = (Thrown e, σ'))
         ∨ (log = before ++ [ConfigurationCalled object]
            ∧ ∃ f, shapeConfigurationCallback = Supplied f
                   ∧ f object σ1 = (Thrown e, σ')))
  ∨ (∃ before shapes σ1,
       Forall loopEvent before
       ∧ log = before ++ [RenderablesAdded shapes]
       ∧ addRenderables layer shapes σ1 = (Thrown e, σ'))
  ∨ (∃ before shapes σ1,
       Forall loopEvent before
       ∧ log = before ++ [RenderablesAdded shapes; CompletionCalled shapes]
       ∧ ∃ g, parserCompletionCallback = Supplied g
              ∧ g shapes σ1 = (Thrown e, σ')).
Proof.
  rewrite load_run.
  destruct (WktTokens_objects (textRepresentation this)) as [objects|e0].
  2: { intros [= -> -> <-]. by left. }
  pose proof (collect_log shapes_of (orElse shapeConfigurationCallback noop)
                objects [] σ) as Hloop.
  unfold collectShapes.
  destruct (forEach _ objects [] σ) as [[[shapes|e0] σ1] t1] eqn:Hcollect;
    simpl in Hloop.
  - destruct (addRenderables layer shapes σ1) as [[v|e1] σ2] eqn:Hlayer.
    + destruct (orElse parserCompletionCallback noop shapes σ2)
        as [[w|e2] σ3] eqn:Hcompletion; [discriminate|].
      intros [= -> -> <-]. do 3 right. exists t1, shapes, σ2.
      split; [done|]. split; [done|].
      destruct parserCompletionCallback as [| |g]; try discriminate.
      by exists g.
    + intros [= -> -> <-]. do 2 right. left. by exists t1, shapes, σ1.
  - intros [= -> -> <-]. right. left. split; [done|].
    apply collect_thrown in Hcollect as (before & object & σ0 & _ & H).
    exists before, object, σ0. destruct H as [H|[Hlog H]]; [by left|].
    right. split; [done|].
    destruct shapeConfigurationCallback as [| |f]; try discriminate.
    by exists f.
Qed.

(** What load writes: the four fields of the shapes [shapes()] returned, and
    nothing else.  If its collaborators leave a property of an object alone,
    then so does load, whatever its outcome, unless the property is one of
    the four fields of a shape that a [shapes()] returned; and even then, if
    the configuration callback never returns an object (as when it is
    missing). *)
Theorem load_writes_only_configured_fields this parserCompletionCallback
    shapeConfigurationCallback layer σ l k :
  (∀ object, keeps l k (shapes_of object)) →
  keeps l k (orElse shapeConfigurationCallback noop) →
  keeps l k (addRenderables layer) →
  keeps l k (orElse parserCompletionCallback noop) →
  let out := load WktTokens_objects shapes_of this parserCompletionCallback
               shapeConfigurationCallback layer σ in
  k ∉ recognizedFields
    ∨ l ∉ concat (shapesReturned out.2).*2
    ∨ returnsNoObject (orElse shapeConfigurationCallback noop) →
  kept l k σ out.1.2.
Proof.
  intros Hshapes Hconfiguration Hlayer Hcompletion out. unfold out. clear out.
  rewrite load_run.
  destruct (WktTokens_objects (textRepresentation this)) as [objects|e0];
    [|intros _; apply kept_refl].
  pose proof (collect_kept shapes_of l k (orElse shapeConfigurationCallback noop)
                objects Hshapes Hconfiguration [] σ) as Hloop.
  unfold collectShapes. simpl in Hloop.
  destruct (forEach _ objects [] σ) as [[[shapes|e0] σ1] t1]; simpl in Hloop;
    [|exact Hloop].
  pose proof (Hlayer shapes σ1) as Hadd.
  destruct (addRenderables layer shapes σ1) as [[v|e1] σ2]; simpl in Hadd.
  - pose proof (Hcompletion shapes σ2) as Hdone.
    destruct (orElse parserCompletionCallback noop shapes σ2) as [[w|e2] σ3];
      simpl in *; rewrite shapesReturned_app, app_nil_r; intros Hframe;
      (eapply kept_trans; [by apply Hloop|]);
      (eapply kept_trans; [exact Hadd | exact Hdone]).
  - simpl. rewrite shapesReturned_app, app_nil_r. intros Hframe.
    eapply kept_trans; [by apply Hloop | exact Hadd].
Qed.

(** *** With a pure callback and a pure materializer *)

Lemma contents_allocated σ (ls : list loc) (os : list obj) :
  contents σ ls = Some <$> os → ∀ l, l ∈ ls → is_Some (σ !! l).
Proof.
  intros H l [i Hi]%list_elem_of_lookup.
  assert (contents σ ls !! i = Some (σ !! l)) as Hl.
  { unfold contents. by rewrite list_lookup_fmap, Hi. }
  rewrite H, list_lookup_fmap in Hl.
  destruct (os !! i); simpl in Hl; [|discriminate]. injection Hl as <-. eauto.
Qed.

Lemma allocated_configureAll c (ls : list loc) :
  ∀ σ l, is_Some (configureAll c ls σ !! l) ↔ is_Some (σ !! l).
Proof.
  induction ls as [|shape ls IH]; intros σ l; [done|].
  change (configureAll c (shape :: ls) σ)
    with (configureAll c ls (configureShape shape c σ)).
  by rewrite IH, allocated_configureShape.
Qed.

Lemma collect_pure_fresh (shapeConfigurationCallback : Function Exn Root Value)
    result primitives :
  pureMaterializer shapes_of primitives →
  pureCallback shapeConfigurationCallback result →
  ∀ objects shapes σ,
  ∃ ls σ' log,
    forEach (eachObject shapes_of shapeConfigurationCallback) objects shapes σ
      = (Returned (shapes ++ ls), σ', log)
    ∧ NoDup ls
    ∧ (∀ l, l ∈ ls → σ !! l = None ∧ is_Some (σ' !! l))
    ∧ (∀ l, is_Some (σ !! l) → is_Some (σ' !! l)).
Proof.
  intros Hmaterializer Hcallback objects.
  induction objects as [|object rest IH]; intros shapes σ.
  { exists [], σ, []. rewrite app_nil_r. split; [done|]. split; [constructor|].
    split; [|done]. intros l Hl. by apply elem_of_nil in Hl. }
  destruct (Hmaterializer object σ)
    as (ls & σm & Hcall & Hnodup & Hfresh & Hold & Hnew).
  set (σ2 := configureAll (result object) ls σm).
  assert (∀ l, l ∈ ls → is_Some (σ2 !! l)) as Hnew2.
  { intros l Hl. apply allocated_configureAll. by eapply contents_allocated. }
  assert (∀ l, is_Some (σ !! l) → is_Some (σ2 !! l)) as Hkept.
  { intros l Hl. apply allocated_configureAll. rewrite Hold; [done|].
    intros Hin. rewrite (Hfresh l Hin) in Hl. by destruct Hl. }
  destruct (IH (shapes ++ ls) σ2) as (ls' & σ' & log' & Hrest & Hnodup' & Hfresh' & Hkept').
  eexists (ls ++ ls'), σ', _. split; [|split; [|split]].
  - rewrite forEach_cons, bind_run. unfold eachObject at 1.
    rewrite bind_run, invoke_run, Hcall. simpl.
    rewrite (shapes_forEach_pure _ result) by done.
    fold σ2. rewrite Hrest. by rewrite <- app_assoc.
  - apply NoDup_app. split; [done|]. split; [|done].
    intros l Hl Hl'. destruct (Hfresh' l Hl') as [Hnone _].
    destruct (Hnew2 l Hl) as [o Ho]. congruence.
  - intros l [Hl|Hl]%elem_of_app.
    + split; [by apply Hfresh | by apply Hkept', Hnew2].
    + destruct (Hfresh' l Hl) as [Hnone Hsome]. split; [|done].
      destruct (σ !! l) eqn:E; [|done].
      destruct (Hkept l) as [o Ho]; [eauto|]. congruence.
  - intros l Hl. by apply Hkept', Hkept.
Qed.

(** With a pure configuration callback and a pure materializer, whose
    configurations are objects of the store, the loops return: the shapes
    they collect are new and distinct objects, one per primitive of each
    object in order, each being its primitive with the truthy fields of the
    object's configuration written over it; and every object the store held
    is left as it was. *)
Theorem pure_loops_configure_new_shapes
    (shapeConfigurationCallback : Function Exn Root Value) result primitives
    objects σ :
  pureMaterializer shapes_of primitives →
  pureCallback shapeConfigurationCallback result →
  (∀ o, o ∈ objects → allocatedIn σ (result o)) →
  ∃ shapes σ' log,
    collectShapes shapes_of shapeConfigurationCallback objects σ
      = (Returned shapes, σ', log)
    ∧ NoDup shapes
    ∧ (∀ l, l ∈ shapes → σ !! l = None)
    ∧ (∀ l, is_Some (σ !! l) → σ' !! l = σ !! l)
    ∧ contents σ' shapes
      = Some <$> (objects ≫= λ o,
                    configureObject (assignedValue σ (result o)) <$> primitives o).
Proof.
  intros Hmaterializer Hcallback Hallocated.
  destruct (collect_pure shapes_of shapeConfigurationCallback result primitives
              (λ o, assignedValue σ (result o)) Hmaterializer Hcallback
              objects [] σ) as (ls & σ' & log & Hrun & Hkept & Hcontents).
  { intros o Ho. split; [by apply Hallocated | done]. }
  destruct (collect_pure_fresh shapeConfigurationCallback result primitives
              Hmaterializer Hcallback objects [] σ)
    as (ls' & σ'' & log' & Hrun' & Hnodup & Hfresh & _).
  rewrite Hrun in Hrun'. injection Hrun' as <- <- <-.
  exists ls, σ', log. split; [exact Hrun|]. split; [done|]. split; [|by split].
  intros l Hl. by apply Hfresh.
Qed.

End Calls.

(** ** The further properties at the concrete instance *)

(** The attributes of the record reach the marker. *)
Lemma truthy_field_is_assigned_witness :
  is_Some (Example.σ1 !! 4%positive)
  ∧ "attributes" ∈ recognizedFields
  ∧ toBoolean (VObject 3%positive) = true
  ∧ toBoolean (getProperty Example.σ1 (VObject 3%positive) "attributes") = true
  ∧ field (configureShape 4%positive (VObject 3%positive) Example.σ1)
          4%positive "attributes"
    = Some (getProperty Example.σ1 (VObject 3%positive) "attributes")
  ∧ getProperty (configureShape 4%positive (VObject 3%positive) Example.σ1)
      (VObject 4%positive) "attributes"
    = getProperty (configureShape 4%positive (VObject 3%positive) Example.σ1)
        (VObject 3%positive) "attributes".
Proof.
  assert (is_Some (Example.σ1 !! 4%positive)) as Hshape
    by (apply (bool_decide_unpack _); vm_compute; exact I).
  assert ("attributes" ∈ recognizedFields) as Hk
    by (unfold recognizedFields; rewrite !elem_of_cons; tauto).
  assert (toBoolean (getProperty Example.σ1 (VObject 3%positive) "attributes") = true)
    as Hv by (vm_compute; reflexivity).
  split; [exact Hshape|]. split; [exact Hk|]. split; [reflexivity|].
  split; [exact Hv|].
  exact (truthy_field_is_assigned Example.σ1 4%positive (VObject 3%positive)
           "attributes" Hshape Hk eq_refl Hv).
Defined.

(** load on the collection, from the parse to the completion callback. *)
Lemma log_of_a_returning_call_witness :
  Example.run Example.collectionText
  = (Returned [Example.collection],
     (Example.run Example.collectionText).1.2,
     (Example.run Example.collectionText).2)
  ∧ ∃ arrays,
      length arrays = length [Example.collection]
      ∧ (Example.run Example.collectionText).2
        = loopLog (zip [Example.collection] arrays)
          ++ [RenderablesAdded (concat arrays); CompletionCalled (concat arrays)]
      ∧ ∃ σ1 v σ2,
          (∀ f, Supplied Example.configure = Supplied f →
                collectedEach Example.shapes f (zip [Example.collection] arrays)
                  Example.σ0 σ1)
          ∧ (isMissing (Supplied Example.configure) = true →
             collectedEach Example.shapes noop (zip [Example.collection] arrays)
               Example.σ0 σ1)
          ∧ addRenderables Example.layer (concat arrays) σ1 = (Returned v, σ2)
          ∧ (∀ g, Supplied Example.completed = Supplied g →
                  ∃ w, g (concat arrays) σ2
                       = (Returned w, (Example.run Example.collectionText).1.2))
          ∧ (isMissing (Supplied Example.completed) = true →
             (Example.run Example.collectionText).1.2 = σ2).
Proof.
  assert (Example.run Example.collectionText
          = (Returned [Example.collection],
             (Example.run Example.collectionText).1.2,
             (Example.run Example.collectionText).2)) as H
    by (apply (outcome_eta (Example.run Example.collectionText)
                 (Returned [Example.collection]));
        vm_compute; reflexivity).
  split; [exact H|].
  exact (log_of_a_returning_call Example.parse Example.shapes _ _ _ _ _ _ _ _ H).
Defined.

(** The callback that throws at its second call: load throws on the second
    shape of the collection. *)
Lemma an_exception_comes_from_a_collaborator_witness :
  Example.runOnce
  = (Thrown (Example.SyntaxError "one shape" "another shape" 0),
     Example.runOnce.1.2, Example.runOnce.2)
  ∧ ((Example.parse Example.collectionText
      = Thrown (Example.SyntaxError "one shape" "another shape" 0)
      ∧ Example.runOnce.1.2 = Example.σ0
      ∧ Example.runOnce.2 = [])
     ∨ (Forall loopEvent Example.runOnce.2
        ∧ ∃ before object σ1,
            (Example.runOnce.2
             = before ++ [ShapesCalled object
                            (Thrown (Example.SyntaxError "one shape"
                                       "another shape" 0))]
             ∧ Example.shapes object tt σ1
               = (Thrown (Example.SyntaxError "one shape" "another shape" 0),
                  Example.runOnce.1.2))
            ∨ (Example.runOnce.2 = before ++ [ConfigurationCalled object]
               ∧ ∃ f, Supplied Example.configureOnce = Supplied f
                      ∧ f object σ1
                        = (Thrown (Example.SyntaxError "one shape"
                                     "another shape" 0),
                           Example.runOnce.1.2)))
     ∨ (∃ before shapes σ1,
          Forall loopEvent before
          ∧ Example.runOnce.2 = before ++ [RenderablesAdded shapes]
          ∧ addRenderables Example.layer shapes σ1
            = (Thrown (Example.SyntaxError "one shape" "another shape" 0),
               Example.runOnce.1.2))
     ∨ (∃ before shapes σ1,
          Forall loopEvent before
          ∧ Example.runOnce.2
            = before ++ [RenderablesAdded shapes; CompletionCalled shapes]
          ∧ ∃ g, Supplied Example.completed = Supplied g
                 ∧ g shapes σ1
                   = (Thrown (Example.SyntaxError "one shape" "another shape" 0),
                      Example.runOnce.1.2))).
Proof.
  assert (Example.runOnce
          = (Thrown (Example.SyntaxError "one shape" "another shape" 0),
             Example.runOnce.1.2, Example.runOnce.2)) as H
    by (apply (outcome_eta Example.runOnce
                 (Thrown (Example.SyntaxError "one shape" "another shape" 0)));
        vm_compute; reflexivity).
  split; [exact H|].
  exact (an_exception_comes_from_a_collaborator Example.parse Example.shapes
           _ _ _ _ _ _ _ _ H).
Defined.

Lemma example_shapes_keep l k object : keeps l k (Example.shapes object).
Proof.
  intros [] σ Hl. unfold Example.shapes.
  destruct (allocateAll (Example.primitives object) σ) as [ls σ'] eqn:H.
  apply allocateAll_fresh in H as (_ & Hfresh & Hold & _). simpl.
  assert (σ' !! l = σ !! l) as Hsame.
  { apply Hold. intros Hin. rewrite (Hfresh l Hin) in Hl. by destruct Hl. }
  unfold field. by rewrite Hsame.
Qed.

Lemma example_layer_keeps l k :
  (l, k) ≠ (1%positive, "renderables") → keeps l k (addRenderables Example.layer).
Proof.
  intros Hne shapes σ Hl. simpl. split; [by apply allocated_setProperty|].
  rewrite field_setProperty. case_decide as H; [|done].
  destruct H as (-> & -> & _). done.
Qed.

Lemma example_completed_keeps l k :
  (l, k) ≠ (1%positive, "completed") → keeps l k Example.completed.
Proof.
  intros Hne shapes σ Hl. simpl. split; [by apply allocated_setProperty|].
  rewrite field_setProperty. case_decide as H; [|done].
  destruct H as (-> & -> & _). done.
Qed.

(** The font colour of the attribute bundle survives load on the collection. *)
Lemma load_writes_only_configured_fields_witness :
  (∀ object, keeps 2%positive "fontColor" (Example.shapes object))
  ∧ keeps 2%positive "fontColor" (orElse (Supplied Example.configure) noop)
  ∧ keeps 2%positive "fontColor" (addRenderables Example.layer)
  ∧ keeps 2%positive "fontColor" (orElse (Supplied Example.completed) noop)
  ∧ ("fontColor" ∉ recognizedFields)
  ∧ kept 2%positive "fontColor" Example.σ0 (Example.run Example.collectionText).1.2.
Proof.
  assert (keeps 2%positive "fontColor" (orElse (Supplied Example.configure) noop))
    as Hconfigure by (intros g σ; apply kept_refl).
  assert (keeps 2%positive "fontColor" (addRenderables Example.layer)) as Hlayer
    by (by apply example_layer_keeps).
  assert (keeps 2%positive "fontColor" (orElse (Supplied Example.completed) noop))
    as Hcompleted by (by apply example_completed_keeps).
  assert ("fontColor" ∉ recognizedFields) as Hk.
  { unfold recognizedFields. rewrite !elem_of_cons, elem_of_nil.
    intros [H|[H|[H|[H|[]]]]]; discriminate. }
  split; [apply example_shapes_keep|]. split; [exact Hconfigure|].
  split; [exact Hlayer|]. split; [exact Hcompleted|]. split; [exact Hk|].
  exact (load_writes_only_configured_fields Example.parse Example.shapes
           (new_WktParser Example.collectionText) (Supplied Example.completed)
           (Supplied Example.configure) Example.layer Example.σ0
           2%positive "fontColor" (example_shapes_keep _ _) Hconfigure Hlayer
           Hcompleted (or_introl Hk)).
Defined.

(** The two shapes of the collection, from the store of the instance. *)
Lemma pure_loops_configure_new_shapes_witness :
  pureMaterializer Example.shapes Example.primitives
  ∧ pureCallback Example.configure Example.configuration
  ∧ (∀ o, o ∈ [Example.collection] → allocatedIn Example.σ0 (Example.configuration o))
  ∧ ∃ shapes σ' log,
      collectShapes Example.shapes Example.configure [Example.collection] Example.σ0
        = (Returned shapes, σ', log)
      ∧ NoDup shapes
      ∧ (∀ l, l ∈ shapes → Example.σ0 !! l = None)
      ∧ (∀ l, is_Some (Example.σ0 !! l) → σ' !! l = Example.σ0 !! l)
      ∧ contents σ' shapes
        = Some <$> ([Example.collection] ≫= λ o,
                      configureObject
                        (assignedValue Example.σ0 (Example.configuration o))
                      <$> Example.primitives o).
Proof.
  assert (∀ o, o ∈ [Example.collection] →
               allocatedIn Example.σ0 (Example.configuration o)) as Hallocated.
  { intros o _ r [= <-]. apply (bool_decide_unpack _). vm_compute. exact I. }
  split; [exact example_shapes_pure|]. split; [exact example_configure_pure|].
  split; [exact Hallocated|].
  exact (pure_loops_configure_new_shapes Example.shapes Example.configure
           Example.configuration Example.primitives [Example.collection]
           Example.σ0 example_shapes_pure example_configure_pure Hallocated).
Defined.
